(** * WebsocketTP: the connection registry and the broadcast fan-out of server.py

    A shallow embedding of [ConnectionManager] (connect, disconnect,
    broadcast), of the [/ws/broadcast/{name}] endpoint and of [/metrics].

    The handlers are coroutines.  Here one handler runs from its first
    statement to its result without another task scheduled in between: the
    lock is then free whenever it is requested, and [async with self.lock]
    is recorded as a pair of events around its body. *)

From stdpp Require Import base list strings pretty gmap.

(** ** Values *)

(** A [WebSocket] object is known by its identity.  Starlette sets
    [__eq__ = object.__eq__] on connections, so [in], [list.remove] and [is]
    all compare this handle. *)
Definition WebSocket := nat.

(** The exceptions the handlers tell apart: [WebSocketDisconnect] has its own
    [except] clause, [ValueError] is what [list.remove] raises on a missing
    element and [RuntimeError] stands for every other subclass of
    [Exception]; [CancelledError] derives from [BaseException] only. *)
Inductive exn := WebSocketDisconnect | ValueError | RuntimeError | CancelledError.

Definition isinstance_Exception (e : exn) : bool :=
  match e with
  | CancelledError => false
  | _ => true
  end.

Definition isinstance_WebSocketDisconnect (e : exn) : bool :=
  match e with
  | WebSocketDisconnect => true
  | _ => false
  end.

Inductive result (A : Type) := Ok (a : A) | Raise (e : exn).
Arguments Ok {A} a.
Arguments Raise {A} e.

(** What a handler does that another party can see, in program order. *)
Inductive event :=
| LockAcquire
| LockRelease
| ActiveRead
| ActiveWrite
| EvAccept (ws : WebSocket) (r : result unit)
| EvSend (ws : WebSocket) (text : string) (r : result unit)
| EvReceive (ws : WebSocket) (r : result string)
| EvClose (ws : WebSocket) (r : result unit).

(** The four awaited operations of a websocket.  Their outcome is the
    network's choice; [World] is whatever decides it. *)
Class Transport (World : Type) := {
  accept : WebSocket → World → result unit * World;
  send_text : WebSocket → string → World → result unit * World;
  receive_text : WebSocket → World → result string * World;
  close : WebSocket → World → result unit * World
}.

(** [list.remove(x)]: drops the first element equal to [x]; [None] is the
    [ValueError] of a missing element. *)
Fixpoint list_remove (x : WebSocket) (l : list WebSocket) : option (list WebSocket) :=
  match l with
  | [] => None
  | y :: l' => if decide (y = x) then Some l' else cons y <$> list_remove x l'
  end.

Section Server.
Context {World : Type} `{!Transport World}.

(** ** Program state and the handler monad *)

(** [active] is [manager.active]; the events say when [manager.lock] is held. *)
Record state := State { world : World; active : list WebSocket }.

Definition M (A : Type) : Type := state → result A * state * list event.

Definition ret {A} (a : A) : M A := λ st, (Ok a, st, []).

Definition raise {A} (e : exn) : M A := λ st, (Raise e, st, []).

Definition bind {A B} (m : M A) (k : A → M B) : M B := λ st,
  match m st with
  | (Ok a, st1, evs1) =>
      let '(r, st2, evs2) := k a st1 in (r, st2, evs1 ++ evs2)
  | (Raise e, st1, evs1) => (Raise e, st1, evs1)
  end.

#[global] Instance M_ret : MRet M := @ret.
#[global] Instance M_bind : MBind M := λ A B k m, bind m k.

(** The protected part of a [try]: the outcome becomes a value. *)
Definition try {A} (m : M A) : M (result A) := λ st,
  let '(r, st1, evs) := m st in (Ok r, st1, evs).

(** [try: body  except Exception: handler]. *)
Definition try_except_Exception {A} (body : M A) (handler : M A) : M A :=
  r ← try body;
  match r with
  | Ok a => mret a
  | Raise e => if isinstance_Exception e then handler else raise e
  end.

Definition emit (ev : event) : M unit := λ st, (Ok tt, st, [ev]).

(** [async with self.lock: body]: the lock is released on every way out. *)
Definition with_lock {A} (body : M A) : M A :=
  emit LockAcquire;;
  r ← try body;
  emit LockRelease;;
  match r with
  | Ok a => mret a
  | Raise e => raise e
  end.

(** ** Accesses to [manager.active] *)

Definition active_append (ws : WebSocket) : M unit := λ st,
  (Ok tt, State (world st) (active st ++ [ws]), [ActiveWrite]).

Definition active_contains (ws : WebSocket) : M bool := λ st,
  (Ok (bool_decide (ws ∈ active st)), st, [ActiveRead]).

Definition active_remove (ws : WebSocket) : M unit := λ st,
  match list_remove ws (active st) with
  | Some l => (Ok tt, State (world st) l, [ActiveWrite])
  | None => (Raise ValueError, st, [ActiveWrite])
  end.

Definition active_list : M (list WebSocket) := λ st,
  (Ok (active st), st, [ActiveRead]).

Definition active_len : M nat := λ st,
  (Ok (length (active st)), st, [ActiveRead]).

(** ** Awaited websocket operations *)

Definition await_accept (ws : WebSocket) : M unit := λ st,
  let '(r, w) := accept ws (world st) in
  (r, State w (active st), [EvAccept ws r]).

Definition await_send_text (ws : WebSocket) (text : string) : M unit := λ st,
  let '(r, w) := send_text ws text (world st) in
  (r, State w (active st), [EvSend ws text r]).

Definition await_receive_text (ws : WebSocket) : M string := λ st,
  let '(r, w) := receive_text ws (world st) in
  (r, State w (active st), [EvReceive ws r]).

Definition await_close (ws : WebSocket) : M unit := λ st,
  let '(r, w) := close ws (world st) in
  (r, State w (active st), [EvClose ws r]).

(** ** ConnectionManager *)

Definition connect (websocket : WebSocket) : M unit :=
  await_accept websocket;;
  with_lock (active_append websocket).

Definition disconnect (websocket : WebSocket) : M unit :=
  with_lock (
    b ← active_contains websocket;
    if b : bool then active_remove websocket else mret tt).

(** [connection is sender], with [sender] possibly [None]. *)
Definition is_sender (sender : option WebSocket) (connection : WebSocket) : bool :=
  match sender with
  | Some s => bool_decide (connection = s)
  | None => false
  end.

(** The first [for] loop of [broadcast], over the copy of [active]. *)
Fixpoint deliver (message : string) (sender : option WebSocket)
    (connections : list WebSocket) (to_remove : list WebSocket)
    : M (list WebSocket) :=
  match connections with
  | [] => mret to_remove
  | connection :: rest =>
      if is_sender sender connection then deliver message sender rest to_remove
      else
        r ← try (await_send_text connection message);
        match r with
        | Ok _ => deliver message sender rest to_remove
        | Raise e =>
            if isinstance_Exception e
            then deliver message sender rest (to_remove ++ [connection])
            else raise e
        end
  end.

(** The second [for] loop of [broadcast]. *)
Fixpoint cleanup (to_remove : list WebSocket) : M unit :=
  match to_remove with
  | [] => mret tt
  | r :: rest =>
      b ← active_contains r;
      (if b : bool then active_remove r else mret tt);;
      cleanup rest
  end.

Definition broadcast (message : string) (sender : option WebSocket) : M unit :=
  with_lock (
    connections ← active_list;
    to_remove ← deliver message sender connections [];
    cleanup to_remove).

(** ** Endpoints *)

(** [f"Bienvenue {name}, il y a {n} connecte(s)."] *)
Definition welcome_text (name : string) (n : nat) : string :=
  "Bienvenue " +:+ name +:+ ", il y a " +:+ pretty n +:+ " connecte(s).".

(** [f"{name}: {message}"] *)
Definition relay_text (name message : string) : string :=
  name +:+ ": " +:+ message.

(** One turn of the [while True] loop. *)
Definition relay (websocket : WebSocket) (name : string) : M unit :=
  message ← await_receive_text websocket;
  broadcast (relay_text name message) (Some websocket).

(** Whether the handler has come to its end, or is still in its loop after
    the turns it was given. *)
Inductive session := Closed | Open.

Fixpoint receive_loop (turns : nat) (websocket : WebSocket) (name : string) : M session :=
  match turns with
  | 0 => mret Open
  | S n => relay websocket name;; receive_loop n websocket name
  end.

Definition websocket_broadcast (turns : nat) (websocket : WebSocket) (name : string)
    : M session :=
  connect websocket;;
  r ← try (
    n ← active_len;
    await_send_text websocket (welcome_text name n);;
    receive_loop turns websocket name);
  match r with
  | Ok s => mret s
  | Raise e =>
      if isinstance_WebSocketDisconnect e then
        disconnect websocket;; mret Closed
      else if isinstance_Exception e then
        disconnect websocket;;
        try_except_Exception (await_close websocket) (mret tt);;
        mret Closed
      else raise e
  end.

(** [GET /metrics]: the number under the key [active_connections]. *)
Definition metrics : M nat := active_len.

End Server.

(** ** Reading a run *)

Definition outcome {World A} (x : result A * @state World * list event) : result A := x.1.1.
Definition final {World A} (x : result A * @state World * list event) : @state World := x.1.2.
Definition events {World A} (x : result A * @state World * list event) : list event := x.2.

(** The recipients of the [send_text] calls of a run, in call order. *)
Definition attempted (evs : list event) : list WebSocket :=
  omap (λ ev, match ev with EvSend ws _ _ => Some ws | _ => None end) evs.

(** The texts of the [send_text] calls. *)
Definition texts (evs : list event) : list string :=
  omap (λ ev, match ev with EvSend _ text _ => Some text | _ => None end) evs.

(** The recipients whose [send_text] raised, and those for which it returned. *)
Definition failed (evs : list event) : list WebSocket :=
  omap (λ ev, match ev with EvSend ws _ (Raise _) => Some ws | _ => None end) evs.

Definition delivered (evs : list event) : list WebSocket :=
  omap (λ ev, match ev with EvSend ws _ (Ok _) => Some ws | _ => None end) evs.

(** A [send_text] of the run raised something [except Exception] lets through. *)
Definition lets_through (ev : event) : bool :=
  match ev with
  | EvSend _ _ (Raise e) => negb (isinstance_Exception e)
  | _ => false
  end.

Definition interrupted (evs : list event) : bool := existsb lets_through evs.

Definition is_send (ev : event) : Prop :=
  match ev with EvSend _ _ _ => True | _ => False end.

Definition is_access (ev : event) : Prop :=
  match ev with ActiveRead | ActiveWrite => True | _ => False end.

(** Every access to [active] lies between an acquire and its release, the
    lock is never requested while held, and it is free at the end. *)
Fixpoint lock_discipline (held : bool) (evs : list event) : bool :=
  match evs with
  | [] => negb held
  | LockAcquire :: evs' => negb held && lock_discipline true evs'
  | LockRelease :: evs' => held && lock_discipline false evs'
  | ActiveRead :: evs' | ActiveWrite :: evs' => held && lock_discipline held evs'
  | _ :: evs' => lock_discipline held evs'
  end.

(** What [if r in active: active.remove(r)] leaves, and the same for each
    element of a list in turn. *)
Definition discard (x : WebSocket) (l : list WebSocket) : list WebSocket :=
  default l (list_remove x l).

Definition discard_all (xs : list WebSocket) (l : list WebSocket) : list WebSocket :=
  foldl (λ acc x, discard x acc) l xs.

(** The connections other than the excluded one, in registry order. *)
Definition others (sender : option WebSocket) (l : list WebSocket) : list WebSocket :=
  filter (λ c, is_sender sender c = false) l.

(** ** A scripted network

    Each [send_text] and each [receive_text] takes its outcome from the head
    of a script; with the script used up a send returns and a receive finds
    the peer gone.  Handshakes and closes always succeed. *)
Record net := Net { sends : list (result unit); inbox : list (result string) }.

#[export] Instance scripted : Transport net := {
  accept _ w := (Ok tt, w);
  send_text _ _ w :=
    match sends w with
    | [] => (Ok tt, w)
    | r :: rs => (r, Net rs (inbox w))
    end;
  receive_text _ w :=
    match inbox w with
    | [] => (Raise WebSocketDisconnect, w)
    | r :: rs => (r, Net (sends w) rs)
    end;
  close _ w := (Ok tt, w)
}.

Definition quiet : net := Net [] [].

(** ** Sequences of join and leave calls *)

Inductive call := Join (ws : WebSocket) | Leave (ws : WebSocket).

Section Calls.
Context {World : Type} `{!Transport World}.

Fixpoint calls (cs : list call) : M unit :=
  match cs with
  | [] => ret tt
  | Join ws :: cs' => bind (connect ws) (λ _, calls cs')
  | Leave ws :: cs' => bind (disconnect ws) (λ _, calls cs')
  end.

End Calls.

(** The connections that have joined and not yet left once the calls [cs]
    are made, [s] being those joined before: the members the spec counts. *)
Fixpoint joined (s : gset WebSocket) (cs : list call) : gset WebSocket :=
  match cs with
  | [] => s
  | Join ws :: cs' => joined ({[ws]} ∪ s) cs'
  | Leave ws :: cs' => joined (s ∖ {[ws]}) cs'
  end.

(** No call of [cs] joins a connection that is a member at that moment. *)
Fixpoint joins_fresh (s : gset WebSocket) (cs : list call) : bool :=
  match cs with
  | [] => true
  | Join ws :: cs' => bool_decide (ws ∉ s) && joins_fresh ({[ws]} ∪ s) cs'
  | Leave ws :: cs' => joins_fresh (s ∖ {[ws]}) cs'
  end.

(** A network on which every [send_text] fails with an [Exception]. *)
#[export] Instance unreachable : Transport unit := {
  accept _ w := (Ok tt, w);
  send_text _ _ w := (Raise RuntimeError, w);
  receive_text _ w := (Raise WebSocketDisconnect, w);
  close _ w := (Ok tt, w)
}.

(** ** Sample rooms *)

(** Four connections, the send to the second recipient fails. *)
Definition room : @state net :=
  State (Net [Ok tt; Raise RuntimeError; Ok tt] []) [1; 2; 3; 4].

(** Two connections, and the task is cancelled in its first send. *)
Definition cancelled_room : @state net :=
  State (Net [Raise CancelledError] []) [1; 2].

(** Three connections, the first of which has sent [hi]. *)
Definition chat : @state net := State (Net [] [Ok "hi"]) [1; 2; 3].

(** Three connections nobody can be reached on. *)
Definition dead_room : @state unit := State tt [1; 2; 3].

(** ** The rest of server.py *)

(** [GET /] and [GET /hello/{name}]: the JSON object returned, as its list of
    keys and values. *)
Definition root : list (string * string) := [("message", "Hello World")].

Definition say_hello (name : string) : list (string * string) :=
  [("message", "Hello " +:+ name)].

Section Hello.
Context {World : Type} `{!Transport World}.

(** One turn of the [while True] loop of [websocket_hello]. *)
Definition echo (websocket : WebSocket) : M unit :=
  message ← await_receive_text websocket;
  await_send_text websocket ("vous avez dit: " +:+ message).

Fixpoint echo_loop (turns : nat) (websocket : WebSocket) : M session :=
  match turns with
  | 0 => mret Open
  | S n => echo websocket;; echo_loop n websocket
  end.

Definition websocket_hello (turns : nat) (websocket : WebSocket) : M session :=
  await_accept websocket;;
  r ← try (
    await_send_text websocket "Hello";;
    echo_loop turns websocket);
  match r with
  | Ok s => mret s
  | Raise e =>
      if isinstance_WebSocketDisconnect e then
        await_close websocket;; mret Closed
      else if isinstance_Exception e then
        try_except_Exception (await_close websocket) (mret tt);;
        mret Closed
      else raise e
  end.

(** The two halves of [websocket_broadcast] after [connect]: the block under
    [try], and the [except] clauses applied to its outcome. *)
Definition protected_block (turns : nat) (websocket : WebSocket) (name : string)
    : M session :=
  n ← active_len;
  await_send_text websocket (welcome_text name n);;
  receive_loop turns websocket name.

Definition except_clauses (websocket : WebSocket) (r : result session) : M session :=
  match r with
  | Ok s => mret s
  | Raise e =>
      if isinstance_WebSocketDisconnect e then
        disconnect websocket;; mret Closed
      else if isinstance_Exception e then
        disconnect websocket;;
        try_except_Exception (await_close websocket) (mret tt);;
        mret Closed
      else raise e
  end.

End Hello.

(** The messages that [receive_text] returned in a run, in order. *)
Definition received (evs : list event) : list string :=
  omap (λ ev, match ev with EvReceive _ (Ok m) => Some m | _ => None end) evs.

(** An awaited websocket operation, as opposed to a use of the manager. *)
Definition is_io (ev : event) : Prop :=
  match ev with
  | EvAccept _ _ | EvSend _ _ _ | EvReceive _ _ | EvClose _ _ => True
  | _ => False
  end.

(** Every change of [active] is made with the lock held, the lock is not
    requested while held and is free at the end; reads may be made anywhere. *)
Fixpoint writes_locked (held : bool) (evs : list event) : bool :=
  match evs with
  | [] => negb held
  | LockAcquire :: evs' => negb held && writes_locked true evs'
  | LockRelease :: evs' => held && writes_locked false evs'
  | ActiveWrite :: evs' => held && writes_locked held evs'
  | _ :: evs' => writes_locked held evs'
  end.

(** How many times a connection is in a registry. *)
Definition occurrences (ws : WebSocket) (l : list WebSocket) : nat :=
  length (filter (λ x, x = ws) l).

(** A client that sends [hi], then [ho], then goes away. *)
Definition two_messages : @state net := State (Net [] [Ok "hi"; Ok "ho"]) [7; 8].

(** A stretch of events that begins and ends with the lock free and changes
    [active] under the lock only: what follows it is judged as if it stood
    alone. *)
Definition settled (evs : list event) : Prop :=
  ∀ rest, writes_locked false (evs ++ rest) = writes_locked false rest.

(** A line on which every send returns and the peer has hung up; the
    handshake and the close end as the line says. *)
Record line := Line { handshake : result unit; hangup : result unit }.

#[export] Instance hung_up : Transport line := {
  accept _ w := (handshake w, w);
  send_text _ _ w := (Ok tt, w);
  receive_text _ w := (Raise WebSocketDisconnect, w);
  close _ w := (hangup w, w)
}.

(** A registry that holds one connection twice, and one with a single member. *)
Definition crowded : @state net := State quiet [1; 2; 3; 2].

Definition alone : @state net := State quiet [1].

(** A line that refuses the handshake, and one on which the close fails. *)
Definition refusing : @state line := State (Line (Raise RuntimeError) (Ok tt)) [1; 2].

Definition bad_close : @state line := State (Line (Ok tt) (Raise RuntimeError)) [1; 2].

(** A registry that holds connection 2 twice, on a network where only the
    first send fails; a registry of three where the first send fails and the
    task is cancelled in the second; and a room of three in which client 1
    has sent [hi] and the task is cancelled in the first send of the relay. *)
Definition twice_registered : @state net :=
  State (Net [Raise RuntimeError] []) [2; 3; 2].

Definition cut_short : @state net :=
  State (Net [Raise RuntimeError; Raise CancelledError] []) [1; 2; 3].

Definition cancelled_relay : @state net :=
  State (Net [Raise CancelledError] [Ok "hi"]) [1; 2; 3].

(** * Properties *)

(** ** [list.remove] and what the clean-up leaves *)

Lemma list_remove_elem x l : x ∈ l → is_Some (list_remove x l).
Proof.
  induction l as [|y l IH]; simpl.
  - intros Hx. by apply not_elem_of_nil in Hx.
  - intros Hx. destruct (decide (y = x)) as [->|Hne]; [by eexists|].
    apply elem_of_cons in Hx as [->|Hx]; [done|].
    destruct (IH Hx) as [l' ->]. by eexists.
Qed.

Lemma list_remove_absent x l : x ∉ l → list_remove x l = None.
Proof.
  induction l as [|y l IH]; simpl; [done|].
  intros Hx. apply not_elem_of_cons in Hx as [Hne Hx].
  destruct (decide (y = x)); [congruence|]. by rewrite IH.
Qed.

Lemma list_remove_Some x l l' :
  list_remove x l = Some l' → l ≡ₚ x :: l' ∧ l' `sublist_of` l.
Proof.
  revert l'. induction l as [|y l IH]; simpl; [done|].
  intros l'. destruct (decide (y = x)) as [->|Hne].
  - intros [= ->]. split; [done|]. by apply sublist_cons.
  - destruct (list_remove x l) as [k|]; [|done]. intros [= <-].
    destruct (IH k eq_refl) as [Hp Hs]. split.
    + rewrite Hp. apply Permutation_swap.
    + by apply sublist_skip.
Qed.

Lemma list_remove_filter x l l' :
  NoDup l → list_remove x l = Some l' → l' = filter (λ y, y ≠ x) l.
Proof.
  revert l'. induction l as [|y l IH]; simpl; [done|].
  intros l' Hnd. apply NoDup_cons in Hnd as [Hy Hnd].
  destruct (decide (y = x)) as [->|Hne].
  - intros [= ->]. rewrite filter_cons_False by tauto.
    symmetry. clear IH Hnd. induction l' as [|z l' IH]; [done|].
    apply not_elem_of_cons in Hy as [Hz Hy].
    rewrite filter_cons_True by congruence. by rewrite IH.
  - destruct (list_remove x l) as [k|]; [|done]. intros [= <-].
    rewrite filter_cons_True by done. by rewrite (IH k).
Qed.

Lemma filter_ne_absent (x : WebSocket) (l : list WebSocket) : x ∉ l → filter (λ y, y ≠ x) l = l.
Proof.
  induction l as [|y l IH]; [done|].
  intros Hx. apply not_elem_of_cons in Hx as [Hne Hx].
  rewrite filter_cons_True by congruence. by rewrite IH.
Qed.

Lemma discard_absent x l : x ∉ l → discard x l = l.
Proof. intros Hx. unfold discard. by rewrite list_remove_absent. Qed.

Lemma discard_present x l : x ∈ l → l ≡ₚ x :: discard x l.
Proof.
  intros Hx. unfold discard. destruct (list_remove_elem x l Hx) as [l' Hl'].
  rewrite Hl'. simpl. by apply list_remove_Some.
Qed.

Lemma discard_sublist x l : discard x l `sublist_of` l.
Proof.
  unfold discard. destruct (list_remove x l) as [l'|] eqn:Hl'; simpl; [|done].
  by apply list_remove_Some in Hl' as [_ ?].
Qed.

Lemma discard_filter x l : NoDup l → discard x l = filter (λ y, y ≠ x) l.
Proof.
  intros Hnd. unfold discard.
  destruct (list_remove x l) as [l'|] eqn:Hl'; simpl.
  - by apply list_remove_filter.
  - symmetry. apply filter_ne_absent. intros Hx.
    destruct (list_remove_elem x l Hx) as [? ?]. congruence.
Qed.

(** The rest of the registry, in its order, is what it was. *)
Lemma discard_others x (l : list WebSocket) :
  filter (λ y, y ≠ x) (discard x l) = filter (λ y, y ≠ x) l.
Proof.
  unfold discard. induction l as [|y l IH]; simpl; [done|].
  destruct (decide (y = x)) as [->|Hne]; simpl.
  - by rewrite filter_cons_False by tauto.
  - destruct (list_remove x l) as [k|]; simpl in *.
    + rewrite !filter_cons_True by done. by rewrite IH.
    + done.
Qed.

Lemma discard_length x l : length l ≤ S (length (discard x l)).
Proof.
  destruct (decide (x ∈ l)) as [Hx|Hx].
  - rewrite (discard_present x l Hx) at 1. simpl. lia.
  - rewrite discard_absent by done. lia.
Qed.

Lemma discard_all_sublist xs l : discard_all xs l `sublist_of` l.
Proof.
  revert l. induction xs as [|x xs IH]; intros l; simpl; [done|].
  etrans; [apply IH|apply discard_sublist].
Qed.

Lemma discard_all_submseteq xs l : xs ⊆+ l → l ≡ₚ xs ++ discard_all xs l.
Proof.
  revert l. induction xs as [|x xs IH]; intros l Hsub; simpl; [done|].
  assert (x ∈ l) as Hx.
  { eapply elem_of_submseteq; [|exact Hsub]. by left. }
  pose proof (discard_present x l Hx) as Hp.
  rewrite Hp in Hsub. apply (submseteq_app_inv_l _ _ [x]) in Hsub.
  rewrite <- (IH _ Hsub). exact Hp.
Qed.

Lemma discard_all_filter xs l :
  NoDup l → discard_all xs l = filter (λ y, y ∉ xs) l.
Proof.
  revert l. induction xs as [|x xs IH]; intros l Hnd; simpl.
  - symmetry. clear Hnd. induction l as [|y l IHl]; [done|].
    rewrite filter_cons_True by apply not_elem_of_nil. by rewrite IHl.
  - rewrite IH by (eapply sublist_NoDup; [done|apply discard_sublist]).
    rewrite discard_filter by done. rewrite list_filter_filter.
    apply list_filter_iff. intros y. rewrite not_elem_of_cons. tauto.
Qed.

(** ** Reading event lists *)

Lemma attempted_app evs1 evs2 : attempted (evs1 ++ evs2) = attempted evs1 ++ attempted evs2.
Proof. apply omap_app. Qed.

Lemma texts_app evs1 evs2 : texts (evs1 ++ evs2) = texts evs1 ++ texts evs2.
Proof. apply omap_app. Qed.

Lemma failed_app evs1 evs2 : failed (evs1 ++ evs2) = failed evs1 ++ failed evs2.
Proof. apply omap_app. Qed.

Lemma delivered_app evs1 evs2 : delivered (evs1 ++ evs2) = delivered evs1 ++ delivered evs2.
Proof. apply omap_app. Qed.

Lemma access_no_send evs :
  Forall is_access evs →
  attempted evs = [] ∧ texts evs = [] ∧ failed evs = [] ∧ delivered evs = [].
Proof.
  induction 1 as [|ev evs Hev _ IH]; [done|].
  destruct ev; simpl in Hev; try done; exact IH.
Qed.

Lemma failed_sublist evs : failed evs `sublist_of` attempted evs.
Proof.
  induction evs as [|ev evs IH]; [done|].
  destruct ev as [| | | | |ws text [[]|e]| |]; simpl; try exact IH.
  - by apply sublist_cons.
  - by apply sublist_skip.
Qed.

Lemma attempted_split evs : attempted evs ≡ₚ failed evs ++ delivered evs.
Proof.
  induction evs as [|ev evs IH]; [done|].
  destruct ev as [| | | | |ws text [[]|e]| |]; simpl; try exact IH.
  - rewrite IH. apply Permutation_middle.
  - by rewrite IH.
Qed.

Lemma interrupted_app evs1 evs2 :
  interrupted (evs1 ++ evs2) = interrupted evs1 || interrupted evs2.
Proof. apply existsb_app. Qed.

Lemma interrupted_access evs : Forall is_access evs → interrupted evs = false.
Proof.
  induction 1 as [|ev evs Hev _ IH]; [done|].
  destruct ev; simpl in Hev; try done; exact IH.
Qed.

Lemma lock_discipline_sends evs rest held :
  Forall is_send evs → lock_discipline held (evs ++ rest) = lock_discipline held rest.
Proof.
  induction 1 as [|ev evs Hev _ IH]; [done|].
  destruct ev; simpl in Hev; try done; exact IH.
Qed.

Lemma lock_discipline_accesses evs rest :
  Forall is_access evs → lock_discipline true (evs ++ rest) = lock_discipline true rest.
Proof.
  induction 1 as [|ev evs Hev _ IH]; [done|].
  destruct ev; simpl in Hev; try done; exact IH.
Qed.

(** ** Runs of the manager's methods *)

Section Runs.
Context {World : Type} `{!Transport World}.
Implicit Types (st : @state World) (ws : WebSocket).

Lemma run_fields {A} (r : result A) st evs :
  outcome (r, st, evs) = r ∧ final (r, st, evs) = st ∧ events (r, st, evs) = evs.
Proof. done. Qed.

Lemma state_eta st : State (world st) (active st) = st.
Proof. by destruct st. Qed.

Lemma bind_assoc {A B C} (m : M A) (f : A → M B) (g : B → M C) st :
  bind m (λ a, bind (f a) g) st = bind (bind m f) g st.
Proof.
  unfold bind. destruct (m st) as [[[a|e] st1] evs1]; [|done].
  destruct (f a st1) as [[[b|e] st2] evs2]; [|done].
  destruct (g b st2) as [[r st3] evs3]. by rewrite app_assoc.
Qed.

Lemma with_lock_run {A} (body : M A) st :
  with_lock body st =
  (outcome (body st), final (body st), LockAcquire :: events (body st) ++ [LockRelease]).
Proof.
  unfold with_lock, mbind, M_bind, bind, try, emit, mret, M_ret, ret, raise,
    outcome, final, events.
  destruct (body st) as [[[a|e] st1] evs]; simpl; by rewrite ?app_nil_r.
Qed.

Lemma connect_run ws st w :
  accept ws (world st) = (Ok tt, w) →
  connect ws st =
  (Ok tt, State w (active st ++ [ws]),
   [EvAccept ws (Ok tt); LockAcquire; ActiveWrite; LockRelease]).
Proof.
  intros Hacc. unfold connect, mbind, M_bind, bind, await_accept.
  rewrite Hacc. by rewrite with_lock_run.
Qed.

Lemma connect_refused ws st e w :
  accept ws (world st) = (Raise e, w) →
  connect ws st = (Raise e, State w (active st), [EvAccept ws (Raise e)]).
Proof.
  intros Hacc. unfold connect, mbind, M_bind, bind, await_accept. by rewrite Hacc.
Qed.

Lemma remove_if_present_run ws st :
  ∃ evs,
    (b ← active_contains ws; if b : bool then active_remove ws else mret tt) st
    = (Ok tt, State (world st) (discard ws (active st)), evs)
    ∧ Forall is_access evs.
Proof.
  unfold mbind, M_bind, bind, active_contains, active_remove, mret, M_ret, ret.
  destruct (decide (ws ∈ active st)) as [Hin|Hin].
  - rewrite bool_decide_eq_true_2 by done. simpl.
    unfold discard. destruct (list_remove_elem ws _ Hin) as [l' ->]. simpl.
    eexists. split; [done|]. by repeat constructor.
  - rewrite bool_decide_eq_false_2 by done. simpl.
    rewrite discard_absent by done. rewrite state_eta.
    eexists. split; [done|]. by repeat constructor.
Qed.

Lemma disconnect_run ws st :
  ∃ evs,
    disconnect ws st =
    (Ok tt, State (world st) (discard ws (active st)), LockAcquire :: evs ++ [LockRelease])
    ∧ Forall is_access evs.
Proof.
  destruct (remove_if_present_run ws st) as (evs & Hrun & Hacc).
  exists evs. split; [|done]. unfold disconnect. rewrite with_lock_run.
  by rewrite Hrun.
Qed.

Lemma cleanup_run to_remove st :
  ∃ evs,
    cleanup to_remove st =
    (Ok tt, State (world st) (discard_all to_remove (active st)), evs)
    ∧ Forall is_access evs.
Proof.
  revert st. induction to_remove as [|r rest IH]; intros st; simpl.
  - exists []. by rewrite state_eta.
  - destruct (remove_if_present_run r st) as (evs1 & Hrun1 & Hacc1).
    destruct (IH (State (world st) (discard r (active st)))) as (evs2 & Hrun2 & Hacc2).
    exists (evs1 ++ evs2). split; [|by apply Forall_app].
    unfold mbind, M_bind in *. rewrite bind_assoc. unfold bind at 1.
    rewrite Hrun1. by rewrite Hrun2.
Qed.

Lemma others_cons_sender sender c l :
  is_sender sender c = true → others sender (c :: l) = others sender l.
Proof. intros Hs. unfold others. rewrite filter_cons_False; [done|congruence]. Qed.

Lemma others_cons_other sender c l :
  is_sender sender c = false → others sender (c :: l) = c :: others sender l.
Proof. intros Hs. unfold others. by rewrite filter_cons_True. Qed.

(** The delivery loop: it leaves [active] alone, only sends, and sends the
    one message down the list of the others until a send raises what
    [except Exception] does not catch. *)
Lemma deliver_run message sender connections to_remove st :
  ∃ r st' evs,
    deliver message sender connections to_remove st = (r, st', evs)
    ∧ active st' = active st
    ∧ Forall is_send evs
    ∧ Forall (λ text, text = message) (texts evs)
    ∧ attempted evs `prefix_of` others sender connections
    ∧ match r with
      | Ok collected =>
          collected = to_remove ++ failed evs
          ∧ attempted evs = others sender connections
          ∧ interrupted evs = false
      | Raise e => isinstance_Exception e = false ∧ interrupted evs = true
      end.
Proof.
  revert to_remove st.
  induction connections as [|c rest IH]; intros to_remove st; simpl.
  - exists (Ok to_remove), st, []. rewrite app_nil_r.
    by split_and!.
  - destruct (is_sender sender c) eqn:Hs.
    { rewrite others_cons_sender by done. apply IH. }
    rewrite others_cons_other by done.
    unfold mbind, M_bind, bind, try, await_send_text.
    destruct (send_text c message (world st)) as [[[]|e] w] eqn:Hsend.
    + destruct (IH to_remove (State w (active st)))
        as (r & st' & evs & Hrun & Hact & Hsends & Htexts & Hpre & Hr).
      rewrite Hrun. exists r, st', (EvSend c message (Ok tt) :: evs). simpl.
      split_and!; [done|done|by constructor|by constructor|by apply prefix_cons|].
      destruct r as [collected|e].
      * by destruct Hr as (-> & -> & Hni).
      * done.
    + destruct (isinstance_Exception e) eqn:He.
      * destruct (IH (to_remove ++ [c]) (State w (active st)))
          as (r & st' & evs & Hrun & Hact & Hsends & Htexts & Hpre & Hr).
        rewrite Hrun. exists r, st', (EvSend c message (Raise e) :: evs). simpl.
        split_and!; [done|done|by constructor|by constructor|by apply prefix_cons|].
        unfold interrupted. simpl. rewrite He. simpl.
        destruct r as [collected|e'].
        -- destruct Hr as (-> & -> & Hni). by rewrite <- app_assoc.
        -- done.
      * exists (Raise e), (State w (active st)), [EvSend c message (Raise e)]. simpl.
        split_and!; [done|done|by repeat constructor|by repeat constructor| |done|].
        -- apply prefix_cons, prefix_nil.
        -- unfold interrupted. simpl. by rewrite He.
Qed.

(** One pass of [broadcast], in full. *)
Lemma broadcast_run message sender st :
  ∃ r st' sends tidy,
    broadcast message sender st =
      (r, st', LockAcquire :: ActiveRead :: sends ++ tidy ++ [LockRelease])
    ∧ Forall is_send sends
    ∧ Forall is_access tidy
    ∧ Forall (λ text, text = message) (texts sends)
    ∧ attempted sends `prefix_of` others sender (active st)
    ∧ match r with
      | Ok _ =>
          attempted sends = others sender (active st)
          ∧ active st' = discard_all (failed sends) (active st)
          ∧ interrupted sends = false
      | Raise e =>
          isinstance_Exception e = false ∧ interrupted sends = true
          ∧ active st' = active st ∧ tidy = []
      end.
Proof.
  destruct (deliver_run message sender (active st) [] st)
    as (r & st1 & sends & Hrun & Hact & Hsends & Htexts & Hpre & Hr).
  unfold broadcast. rewrite with_lock_run.
  unfold mbind, M_bind, bind, active_list, outcome, final, events. simpl.
  rewrite Hrun. destruct r as [collected|e].
  - destruct Hr as (-> & Hall & Hni). simpl.
    destruct (cleanup_run (failed sends) st1) as (tidy & Hclean & Hacc).
    rewrite Hclean. simpl.
    exists (Ok tt), (State (world st1) (discard_all (failed sends) (active st1))), sends, tidy.
    rewrite Hact, <- app_assoc. by split_and!.
  - destruct Hr as [He Hi]. simpl. exists (Raise e), st1, sends, [].
    by split_and!.
Qed.

End Runs.

(** ** The broadcast pass *)

Section Broadcast.
Context {World : Type} `{!Transport World}.
Implicit Types (st : @state World) (ws : WebSocket).

Lemma pass_observed sends tidy :
  Forall is_access tidy →
  let evs := LockAcquire :: ActiveRead :: sends ++ tidy ++ [LockRelease] in
  attempted evs = attempted sends ∧ texts evs = texts sends
  ∧ failed evs = failed sends ∧ delivered evs = delivered sends
  ∧ interrupted evs = interrupted sends.
Proof.
  intros Hacc evs. destruct (access_no_send tidy Hacc) as (Ha & Ht & Hf & Hd).
  unfold evs. simpl.
  rewrite !attempted_app, !texts_app, !failed_app, !delivered_app, Ha, Ht, Hf, Hd.
  simpl. rewrite !app_nil_r. split_and!; try done.
  change (interrupted (sends ++ tidy ++ [LockRelease]) = interrupted sends).
  rewrite !interrupted_app, (interrupted_access tidy Hacc). simpl.
  by rewrite orb_false_r.
Qed.

Lemma others_elem sender c l :
  c ∈ others sender l ↔ is_sender sender c = false ∧ c ∈ l.
Proof. unfold others. by rewrite list_elem_of_filter. Qed.

Lemma is_sender_Some s c : is_sender (Some s) c = true ↔ c = s.
Proof. simpl. by rewrite bool_decide_eq_true. Qed.

(** C3. Whatever the registry and the network, a broadcast made with a
    sender never calls [send_text] on that sender: the recipients of the pass
    do not include it.  The test is on the handle: a connection is skipped
    exactly when it is the sender itself. *)
Theorem broadcast_skips_sender message s st :
  (s ∉ attempted (events (broadcast message (Some s) st)))
  ∧ (∀ c, is_sender (Some s) c = true ↔ c = s).
Proof.
  split; [|intros c; apply is_sender_Some].
  destruct (broadcast_run message (Some s) st)
    as (r & st' & sends & tidy & Hrun & _ & Hacc & _ & Hpre & _).
  rewrite Hrun. unfold events. cbn [snd].
  destruct (pass_observed sends tidy Hacc) as (-> & _).
  intros Hin. destruct Hpre as [k Hk].
  assert (s ∈ others (Some s) (active st)) as Hs.
  { rewrite Hk. apply elem_of_app. by left. }
  apply others_elem in Hs as [Hs _]. simpl in Hs.
  by rewrite bool_decide_eq_true_2 in Hs.
Qed.

Lemma filter_eq_length_perm (c : WebSocket) (l k : list WebSocket) :
  l ≡ₚ k → length (filter (λ x, x = c) l) = length (filter (λ x, x = c) k).
Proof. intros Hp. by rewrite Hp. Qed.

Lemma filter_eq_absent (c : WebSocket) (l : list WebSocket) :
  c ∉ l → filter (λ x, x = c) l = [].
Proof.
  induction l as [|y l IH]; [done|].
  intros Hc. apply not_elem_of_cons in Hc as [Hne Hc].
  rewrite filter_cons_False by congruence. by apply IH.
Qed.

Lemma filter_eq_present (c : WebSocket) (l : list WebSocket) :
  c ∈ l → 0 < length (filter (λ x, x = c) l).
Proof.
  intros Hc. assert (c ∈ filter (λ x, x = c) l) as Hin.
  { by apply list_elem_of_filter. }
  destruct (filter (λ x, x = c) l); [by apply not_elem_of_nil in Hin|simpl; lia].
Qed.

Lemma filter_eq_others sender (c : WebSocket) (l : list WebSocket) :
  is_sender sender c = false →
  filter (λ x, x = c) (others sender l) = filter (λ x, x = c) l.
Proof.
  intros Hs. unfold others. rewrite list_filter_filter.
  apply list_filter_iff. intros x. split; [tauto|]. by intros ->.
Qed.

Lemma failed_submseteq sender sends l :
  attempted sends = others sender l → failed sends ⊆+ l.
Proof.
  intros Hall. etrans; [apply sublist_submseteq, failed_sublist|].
  rewrite Hall. apply sublist_submseteq, sublist_filter.
Qed.

(** After a pass that went through the whole list a connection other than
    the sender is registered as many times as a send to it returned. *)
Lemma pass_count sender sends l c :
  attempted sends = others sender l →
  is_sender sender c = false →
  length (filter (λ x, x = c) (discard_all (failed sends) l)) =
  length (filter (λ x, x = c) (delivered sends)).
Proof.
  intros Hall Hs.
  pose proof (discard_all_submseteq _ _ (failed_submseteq _ _ _ Hall)) as Hp.
  pose proof (filter_eq_length_perm c _ _ Hp) as Hlen.
  pose proof (filter_eq_length_perm c _ _ (attempted_split sends)) as Hlen'.
  rewrite Hall, filter_eq_others in Hlen' by done.
  rewrite !filter_app, !length_app in Hlen, Hlen'. lia.
Qed.

Lemma attempted_not_sender sender sends l c :
  attempted sends = others sender l →
  c ∈ attempted sends → is_sender sender c = false.
Proof. intros -> Hc. by apply others_elem in Hc as [? _]. Qed.

(** A connection all of whose sends failed in a pass that returned has no
    occurrence left. *)
Lemma all_failed_absent sender sends l c :
  attempted sends = others sender l →
  c ∈ failed sends → c ∉ delivered sends →
  c ∉ discard_all (failed sends) l.
Proof.
  intros Hall Hf Hd Hin.
  assert (is_sender sender c = false) as Hs.
  { apply (attempted_not_sender sender sends l); [done|].
    eapply elem_of_sublist; [exact Hf|apply failed_sublist]. }
  pose proof (pass_count sender sends l c Hall Hs) as Hlen.
  rewrite (filter_eq_absent c (delivered sends)) in Hlen by done.
  pose proof (filter_eq_present c _ Hin). simpl in Hlen. lia.
Qed.

(** A connection with a send that returned is still registered. *)
Lemma delivered_remains sender sends l c :
  attempted sends = others sender l →
  c ∈ delivered sends →
  c ∈ discard_all (failed sends) l.
Proof.
  intros Hall Hd.
  assert (is_sender sender c = false) as Hs.
  { apply (attempted_not_sender sender sends l); [done|].
    rewrite (attempted_split sends). apply elem_of_app. by right. }
  pose proof (pass_count sender sends l c Hall Hs) as Hlen.
  pose proof (filter_eq_present c _ Hd) as Hpos.
  destruct (decide (c ∈ discard_all (failed sends) l)) as [|Hout]; [done|].
  rewrite (filter_eq_absent c _ Hout) in Hlen. simpl in Hlen. lia.
Qed.

Lemma broadcast_attempts message sender st :
  interrupted (events (broadcast message sender st)) = false →
  outcome (broadcast message sender st) = Ok tt
  ∧ attempted (events (broadcast message sender st)) = others sender (active st).
Proof.
  destruct (broadcast_run message sender st)
    as (r & st' & sends & tidy & Hrun & _ & Hacc & _ & _ & Hr).
  rewrite Hrun. unfold events, outcome. cbn [fst snd].
  destruct (pass_observed sends tidy Hacc) as (-> & _ & _ & _ & ->).
  intros Hni. destruct r as [[]|e]; [|destruct Hr as (_ & Hi & _); congruence].
  by destruct Hr as (Hall & _).
Qed.

(** C2, as the code has it.  In a pass in which the sends that fail raise
    what [except Exception] catches, however many of them fail, [send_text] is called once on each
    registered connection other than the excluded one, in registry order,
    and [broadcast] returns; a connection all of whose sends failed is then
    out of the registry, and so is every connection with a failed send when
    the registry holds each connection once. *)
Theorem broadcast_fault_isolation message sender st :
  interrupted (events (broadcast message sender st)) = false →
  outcome (broadcast message sender st) = Ok tt
  ∧ attempted (events (broadcast message sender st)) = others sender (active st)
  ∧ (∀ c, c ∈ failed (events (broadcast message sender st)) →
          c ∉ delivered (events (broadcast message sender st)) →
          c ∉ active (final (broadcast message sender st)))
  ∧ (NoDup (active st) →
     ∀ c, c ∈ failed (events (broadcast message sender st)) →
          c ∉ active (final (broadcast message sender st))).
Proof.
  destruct (broadcast_run message sender st)
    as (r & st' & sends & tidy & Hrun & _ & Hacc & _ & _ & Hr).
  rewrite Hrun. unfold events, outcome, final. cbn [fst snd].
  destruct (pass_observed sends tidy Hacc) as (-> & _ & -> & -> & ->).
  intros Hni. destruct r as [[]|e]; [|destruct Hr as (_ & Hi & _); congruence].
  destruct Hr as (Hall & -> & _). split_and!; [done|done| |].
  - intros c. by apply all_failed_absent with sender.
  - intros Hnd c Hf. rewrite discard_all_filter by done.
    rewrite list_elem_of_filter. tauto.
Qed.

(** C7. The events of a pass are: the lock taken, the copy of [active]
    read, then sends only, then accesses to [active] only, then the lock
    released; the delivery loop ends with [active] as it found it.  When
    [broadcast] returns, the old registry is the new one plus the
    connections whose send failed, the new one keeps the old order, every
    connection without a failed send and every connection with a send that
    succeeded is still in it, the excluded sender too; with each connection
    held once it is the old registry filtered of the failed ones.  When the
    pass is cut short nothing is removed. *)
Theorem broadcast_removes_after_pass message sender st :
  ∃ sends tidy,
    events (broadcast message sender st) =
      LockAcquire :: ActiveRead :: sends ++ tidy ++ [LockRelease]
    ∧ Forall is_send sends
    ∧ Forall is_access tidy
    ∧ active (final (deliver message sender (active st) [] st)) = active st
    ∧ match outcome (broadcast message sender st) with
      | Ok _ =>
          active st ≡ₚ failed sends ++ active (final (broadcast message sender st))
          ∧ active (final (broadcast message sender st)) `sublist_of` active st
          ∧ (∀ c, c ∈ active st → c ∉ failed sends →
                  c ∈ active (final (broadcast message sender st)))
          ∧ (∀ c, c ∈ delivered sends →
                  c ∈ active (final (broadcast message sender st)))
          ∧ (∀ s, sender = Some s → s ∈ active st →
                  s ∈ active (final (broadcast message sender st)))
          ∧ (NoDup (active st) →
             active (final (broadcast message sender st)) =
             filter (λ c, c ∉ failed sends) (active st))
      | Raise _ => active (final (broadcast message sender st)) = active st
      end.
Proof.
  destruct (broadcast_run message sender st)
    as (r & st' & sends & tidy & Hrun & Hsends & Hacc & _ & Hpre & Hr).
  exists sends, tidy. rewrite Hrun.
  destruct (run_fields r st' (LockAcquire :: ActiveRead :: sends ++ tidy ++ [LockRelease]))
    as (-> & -> & ->).
  split_and!; [done|done|done| |].
  { destruct (deliver_run message sender (active st) [] st)
      as (r1 & st1 & evs1 & -> & Hact & _). done. }
  destruct r as [[]|e]; [|by destruct Hr as (_ & _ & -> & _)].
  destruct Hr as (Hall & -> & _).
  pose proof (discard_all_submseteq _ _ (failed_submseteq _ _ _ Hall)) as Hp.
  assert (∀ c, c ∈ active st → c ∉ failed sends →
               c ∈ discard_all (failed sends) (active st)) as Hkeep.
  { intros c Hc Hnf. rewrite Hp in Hc. apply elem_of_app in Hc as [Hc|Hc]; done. }
  split_and!; [done|apply discard_all_sublist|done| | |apply discard_all_filter].
  { intros c. by apply delivered_remains with sender. }
  intros s -> Hs. apply Hkeep; [done|]. intros Hf.
  assert (s ∈ others (Some s) (active st)) as Ho.
  { rewrite <- Hall. eapply elem_of_sublist; [exact Hf|apply failed_sublist]. }
  apply others_elem in Ho as [Ho _]. simpl in Ho.
  by rewrite bool_decide_eq_true_2 in Ho.
Qed.

(** The pass returns exactly when no send raised past [except Exception]. *)
Lemma broadcast_outcome message sender st :
  outcome (broadcast message sender st) = Ok tt
  ↔ interrupted (events (broadcast message sender st)) = false.
Proof.
  destruct (broadcast_run message sender st)
    as (r & st' & sends & tidy & Hrun & _ & Hacc & _ & _ & Hr).
  rewrite Hrun. unfold events, outcome. cbn [fst snd].
  destruct (pass_observed sends tidy Hacc) as (_ & _ & _ & _ & ->).
  destruct r as [[]|e].
  - by destruct Hr as (_ & _ & ->).
  - destruct Hr as (_ & -> & _). done.
Qed.

Lemma sends_catchable evs :
  Forall (λ ev, ∀ ws text e, ev = EvSend ws text (Raise e) → isinstance_Exception e = true) evs →
  interrupted evs = false.
Proof.
  induction 1 as [|ev evs Hev _ IH]; [done|].
  unfold interrupted. simpl. fold (interrupted evs). rewrite IH, orb_false_r.
  destruct ev as [| | | | |ws text [|e]| |]; try done.
  simpl. by rewrite (Hev ws text e eq_refl).
Qed.

Lemma deliver_events message sender connections to_remove st :
  (∀ ws text w e w', send_text ws text w = (Raise e, w') → isinstance_Exception e = true) →
  Forall (λ ev, ∀ ws text e, ev = EvSend ws text (Raise e) → isinstance_Exception e = true)
    (events (deliver message sender connections to_remove st)).
Proof.
  intros Hsend. revert to_remove st.
  induction connections as [|c rest IH]; intros to_remove st; simpl.
  - constructor.
  - destruct (is_sender sender c); [apply IH|].
    unfold mbind, M_bind, bind, try, await_send_text.
    destruct (send_text c message (world st)) as [[[]|e] w] eqn:Hc.
    + specialize (IH to_remove (State w (active st))).
      destruct (deliver message sender rest to_remove (State w (active st)))
        as [[r st'] evs]. unfold events in *. simpl in *.
      constructor; [|done]. by intros ws text e [=].
    + rewrite (Hsend _ _ _ _ _ Hc).
      specialize (IH (to_remove ++ [c]) (State w (active st))).
      destruct (deliver message sender rest (to_remove ++ [c]) (State w (active st)))
        as [[r st'] evs]. unfold events in *. simpl in *.
      constructor; [|done]. intros ws text e' [= -> -> ->]. by eapply Hsend.
Qed.

Lemma broadcast_sends message sender st :
  ∃ tidy,
    events (broadcast message sender st) =
      LockAcquire :: ActiveRead
        :: events (deliver message sender (active st) [] st) ++ tidy ++ [LockRelease]
    ∧ Forall is_access tidy.
Proof.
  unfold broadcast. rewrite with_lock_run.
  unfold mbind, M_bind, bind, active_list, outcome, final, events. simpl.
  destruct (deliver message sender (active st) [] st) as [[[collected|e] st1] evs1]; simpl.
  - destruct (cleanup_run collected st1) as (tidy & -> & Hacc). simpl.
    exists tidy. by rewrite <- app_assoc.
  - by exists [].
Qed.

(** C9, as the code has it.  On a network whose [send_text] raises
    nothing but instances of [Exception], [broadcast] returns normally from
    every registry, also when the send to every recipient raises. *)
Theorem broadcast_returns message sender st :
  (∀ ws text w e w', send_text ws text w = (Raise e, w') → isinstance_Exception e = true) →
  outcome (broadcast message sender st) = Ok tt.
Proof.
  intros Hsend. apply broadcast_outcome.
  destruct (broadcast_sends message sender st) as (tidy & -> & Hacc).
  destruct (pass_observed (events (deliver message sender (active st) [] st)) tidy Hacc)
    as (_ & _ & _ & _ & ->).
  by apply sends_catchable, deliver_events.
Qed.

End Broadcast.

(** ** Leaving *)

Section Leave.
Context {World : Type} `{!Transport World}.
Implicit Types (st : @state World) (ws : WebSocket).

Lemma disconnect_fields ws st :
  outcome (disconnect ws st) = Ok tt
  ∧ final (disconnect ws st) = State (world st) (discard ws (active st)).
Proof. destruct (disconnect_run ws st) as (evs & -> & _). done. Qed.

(** C6. [disconnect] never raises, whether the connection is registered
    or not; the other connections stay as they were, with their order and
    their number of occurrences; for a connection that is not registered the
    whole state is unchanged; a second [disconnect] of the same connection
    returns as well and still leaves the others alone. *)
Theorem disconnect_absent_noop ws st :
  outcome (disconnect ws st) = Ok tt
  ∧ filter (λ c, c ≠ ws) (active (final (disconnect ws st))) =
    filter (λ c, c ≠ ws) (active st)
  ∧ (ws ∉ active st → final (disconnect ws st) = st)
  ∧ outcome (disconnect ws (final (disconnect ws st))) = Ok tt
  ∧ filter (λ c, c ≠ ws) (active (final (disconnect ws (final (disconnect ws st))))) =
    filter (λ c, c ≠ ws) (active st).
Proof.
  destruct (disconnect_fields ws st) as [Hout Hfin].
  destruct (disconnect_fields ws (final (disconnect ws st))) as [Hout2 Hfin2].
  rewrite Hfin2, Hfin. simpl. rewrite !discard_others.
  split_and!; try done.
  - intros Hws. rewrite discard_absent by done. apply state_eta.
  - apply disconnect_fields.
Qed.

Lemma join_join_leave ws st w1 w2 :
  accept ws (world st) = (Ok tt, w1) → accept ws w1 = (Ok tt, w2) →
  outcome (calls [Join ws; Join ws; Leave ws] st) = Ok tt
  ∧ final (calls [Join ws; Join ws; Leave ws] st) =
    State w2 (discard ws ((active st ++ [ws]) ++ [ws])).
Proof.
  intros H1 H2. simpl. unfold bind.
  rewrite (connect_run ws st w1 H1).
  rewrite (connect_run ws (State w1 (active st ++ [ws])) w2 H2). cbn [active].
  destruct (disconnect_run ws (State w2 ((active st ++ [ws]) ++ [ws])))
    as (evs & -> & _).
  done.
Qed.

(** C10. One [disconnect] takes one occurrence of the connection out of
    the registry when there is one, and nothing else.  A connection joined
    twice is therefore still registered after one [disconnect], and a later
    broadcast from anyone else has it among its recipients. *)
Theorem disconnect_one_occurrence ws st :
  length (active st) ≤ S (length (active (final (disconnect ws st))))
  ∧ (ws ∈ active st → active st ≡ₚ ws :: active (final (disconnect ws st)))
  ∧ (ws ∉ active st → active (final (disconnect ws st)) = active st)
  ∧ (∀ w1 w2, accept ws (world st) = (Ok tt, w1) → accept ws w1 = (Ok tt, w2) →
       let st' := final (calls [Join ws; Join ws; Leave ws] st) in
       ws ∈ active st'
       ∧ ∀ message sender, sender ≠ Some ws →
           ws ∈ others sender (active st')
           ∧ (interrupted (events (broadcast message sender st')) = false →
              ws ∈ attempted (events (broadcast message sender st')))).
Proof.
  destruct (disconnect_fields ws st) as [_ Hfin].
  split_and!.
  - rewrite Hfin. apply discard_length.
  - rewrite Hfin. apply discard_present.
  - rewrite Hfin. apply discard_absent.
  - intros w1 w2 H1 H2 st'. subst st'.
    destruct (join_join_leave ws st w1 w2 H1 H2) as [_ ->]. cbn [active].
    assert (ws ∈ discard ws ((active st ++ [ws]) ++ [ws])) as Hin.
    { assert (ws :: ws :: active st ≡ₚ ws :: discard ws ((active st ++ [ws]) ++ [ws])) as Hp.
      { rewrite <- discard_present.
        - rewrite <- app_assoc. simpl. by rewrite <- !Permutation_middle, app_nil_r.
        - apply elem_of_app. right. by left. }
      apply Permutation_cons_inv in Hp. rewrite <- Hp. by left. }
    split; [done|]. intros message sender Hsender.
    assert (ws ∈ others sender (discard ws ((active st ++ [ws]) ++ [ws]))) as Ho.
    { apply others_elem. split; [|done].
      destruct sender as [s|]; [|done]. simpl.
      apply bool_decide_eq_false_2. congruence. }
    split; [done|]. intros Hni.
    apply broadcast_attempts in Hni as (_ & ->). done.
Qed.

End Leave.

(** ** The broadcast endpoint *)

Section Session.
Context {World : Type} `{!Transport World}.
Implicit Types (st : @state World) (ws : WebSocket).

Lemma bind_Ok {A B} (m : M A) (k : A → M B) st a :
  outcome (m st) = Ok a →
  bind m k st =
  (outcome (k a (final (m st))), final (k a (final (m st))),
   events (m st) ++ events (k a (final (m st)))).
Proof.
  unfold bind, outcome, final, events.
  destruct (m st) as [[r st1] evs1]. simpl. intros ->.
  by destruct (k a st1) as [[r st2] evs2].
Qed.

Lemma bind_events {A B} (m : M A) (k : A → M B) st :
  ∃ rest, events (bind m k st) = events (m st) ++ rest.
Proof.
  unfold bind, events. destruct (m st) as [[[a|e] st1] evs1]; simpl.
  - destruct (k a st1) as [[r st2] evs2]. by exists evs2.
  - exists []. by rewrite app_nil_r.
Qed.

Lemma relay_run ws name m st w :
  receive_text ws (world st) = (Ok m, w) →
  relay ws name st =
  (outcome (broadcast (relay_text name m) (Some ws) (State w (active st))),
   final (broadcast (relay_text name m) (Some ws) (State w (active st))),
   EvReceive ws (Ok m)
     :: events (broadcast (relay_text name m) (Some ws) (State w (active st)))).
Proof.
  intros Hrecv. unfold relay, mbind, M_bind, bind, await_receive_text.
  rewrite Hrecv.
  by destruct (broadcast (relay_text name m) (Some ws) (State w (active st)))
    as [[r st'] evs].
Qed.

(** C5, as the code has it.  One turn of the loop in which the client's
    message [m] arrives: every text sent in that turn is the name, a colon, a space and [m]; none
    goes to the client itself; the recipients are the other registered
    connections taken in registry order, and all of them when no send is cut
    short, in which case the turn ends normally. *)
Theorem relay_to_others ws name m st w :
  receive_text ws (world st) = (Ok m, w) →
  Forall (λ text, text = name +:+ ": " +:+ m) (texts (events (relay ws name st)))
  ∧ (ws ∉ attempted (events (relay ws name st)))
  ∧ attempted (events (relay ws name st)) `prefix_of` filter (λ c, c ≠ ws) (active st)
  ∧ (interrupted (events (relay ws name st)) = false →
     outcome (relay ws name st) = Ok tt
     ∧ attempted (events (relay ws name st)) = filter (λ c, c ≠ ws) (active st)).
Proof.
  intros Hrecv. rewrite (relay_run ws name m st w Hrecv).
  assert (others (Some ws) (active st) = filter (λ c, c ≠ ws) (active st)) as Ho.
  { unfold others. apply list_filter_iff. intros c. simpl.
    by rewrite bool_decide_eq_false. }
  rewrite <- Ho.
  pose proof (broadcast_attempts (relay_text name m) (Some ws) (State w (active st)))
    as Hall.
  destruct (broadcast_run (relay_text name m) (Some ws) (State w (active st)))
    as (r & st' & sends & tidy & Hrun & _ & Hacc & Htexts & Hpre & _).
  remember (broadcast (relay_text name m) (Some ws) (State w (active st))) as run.
  destruct run as [[r' st''] evs]. injection Hrun as -> -> ->.
  unfold events, outcome in *. cbn [fst snd active] in *.
  change (attempted (EvReceive ws (Ok m) :: ?evs)) with (attempted evs).
  change (texts (EvReceive ws (Ok m) :: ?evs)) with (texts evs).
  change (interrupted (EvReceive ws (Ok m) :: ?evs)) with (interrupted evs).
  destruct (pass_observed sends tidy Hacc) as (Ha & Ht & _).
  split_and!.
  - by rewrite Ht.
  - rewrite Ha. intros Hin. destruct Hpre as [k Hk].
    assert (ws ∈ others (Some ws) (active st)) as Hs.
    { rewrite Hk. apply elem_of_app. by left. }
    rewrite Ho in Hs. apply list_elem_of_filter in Hs as [Hs _]. done.
  - by rewrite Ha.
  - exact Hall.
Qed.

(** C4. When the handshake of a client is accepted, [connect] returns
    with the client appended to the registry, and the next things the
    handler does are to read the size of the registry and to send the client
    the welcome text with that size, the one measured after its own join. *)
Theorem welcome_after_join turns ws name st w :
  accept ws (world st) = (Ok tt, w) →
  outcome (connect ws st) = Ok tt
  ∧ active (final (connect ws st)) = active st ++ [ws]
  ∧ ∃ r rest,
      events (websocket_broadcast turns ws name st) =
      events (connect ws st)
      ++ ActiveRead
      :: EvSend ws
           ("Bienvenue " +:+ name +:+ ", il y a "
            +:+ pretty (length (active (final (connect ws st))))
            +:+ " connecte(s).") r
      :: rest.
Proof.
  intros Hacc. pose proof (connect_run ws st w Hacc) as Hc.
  split_and!; [by rewrite Hc..|].
  unfold websocket_broadcast, mbind, M_bind.
  rewrite (bind_Ok _ _ st tt) by (by rewrite Hc). unfold events at 1. cbn [snd].
  set (st1 := final (connect ws st)).
  match goal with |- context [events (bind ?m ?k st1)] =>
    destruct (bind_events m k st1) as [rest1 ->] end.
  unfold try at 1, bind at 1, active_len at 1. cbn [world active].
  match goal with |- context [bind ?m ?k st1] =>
    destruct (bind_events m k st1) as [rest2 Hrest2] end.
  destruct (bind _ _ st1) as [[r2 st2] evs2] eqn:Hb.
  unfold events in Hrest2 at 1. cbn [snd] in Hrest2. subst evs2.
  unfold events at 2. cbn [snd].
  unfold await_send_text, welcome_text.
  destruct (send_text ws _ (world st1)) as [r w1].
  unfold events at 2. cbn [snd].
  exists r, (rest2 ++ rest1). reflexivity.
Qed.

End Session.

(** ** Joining and leaving in sequence *)

Section Sequences.
Context {World : Type} `{!Transport World}.
Implicit Types (st : @state World) (ws : WebSocket).

Lemma members_append (l : list WebSocket) ws :
  list_to_set (C:=gset WebSocket) (l ++ [ws]) = {[ws]} ∪ list_to_set l.
Proof.
  rewrite list_to_set_app_L. simpl. rewrite (right_id_L ∅ (∪)). apply (comm_L (∪)).
Qed.

Lemma members_discard (l : list WebSocket) ws :
  NoDup l →
  list_to_set (C:=gset WebSocket) (discard ws l) = list_to_set l ∖ {[ws]}.
Proof.
  intros Hnd. rewrite discard_filter by done. apply set_eq. intros x.
  rewrite elem_of_difference, !elem_of_list_to_set, list_elem_of_filter,
    elem_of_singleton. tauto.
Qed.

Lemma calls_members cs st :
  NoDup (active st) →
  joins_fresh (list_to_set (active st)) cs = true →
  outcome (calls cs st) = Ok tt →
  NoDup (active (final (calls cs st)))
  ∧ list_to_set (active (final (calls cs st))) = joined (list_to_set (active st)) cs.
Proof.
  revert st. induction cs as [|[ws|ws] cs IH]; intros st Hnd Hfresh Hout.
  - done.
  - simpl in Hfresh. apply andb_true_iff in Hfresh as [Hnew Hfresh].
    apply bool_decide_eq_true in Hnew. rewrite elem_of_list_to_set in Hnew.
    simpl in *. unfold bind in *.
    destruct (accept ws (world st)) as [[[]|e] w] eqn:Hacc.
    + rewrite (connect_run ws st w Hacc) in *.
      specialize (IH (State w (active st ++ [ws]))). cbn [active] in IH.
      rewrite members_append in IH.
      destruct (calls cs (State w (active st ++ [ws]))) as [[r st'] evs].
      apply IH; [|done|done].
      apply NoDup_app. split_and!; [done| |apply NoDup_singleton].
      intros x Hx ->%list_elem_of_singleton. done.
    + by rewrite (connect_refused ws st e w Hacc) in Hout.
  - simpl in *. unfold bind in *.
    destruct (disconnect_run ws st) as (evs0 & Hrun & _). rewrite Hrun in *.
    specialize (IH (State (world st) (discard ws (active st)))). cbn [active] in IH.
    rewrite members_discard in IH by done.
    destruct (calls cs (State (world st) (discard ws (active st)))) as [[r st'] evs].
    apply IH; [|done|done].
    eapply sublist_NoDup; [done|apply discard_sublist].
Qed.

(** C1, as the code has it.  [connect] appends the connection once its
    handshake is accepted, whether or not it is registered already.  In a
    sequence of calls that never joins a connection while it is a member,
    started from a registry without repetition, each connection is at most
    once in the registry, the registered connections are those that have
    joined and not yet left, and the size that [/metrics] reports is their
    number. *)
Theorem registry_size cs st :
  NoDup (active st) →
  joins_fresh (list_to_set (active st)) cs = true →
  outcome (calls cs st) = Ok tt →
  (∀ ws w, accept ws (world st) = (Ok tt, w) →
           active (final (connect ws st)) = active st ++ [ws])
  ∧ NoDup (active (final (calls cs st)))
  ∧ list_to_set (active (final (calls cs st))) = joined (list_to_set (active st)) cs
  ∧ outcome (metrics (final (calls cs st))) =
    Ok (size (joined (list_to_set (active st)) cs)).
Proof.
  intros Hnd Hfresh Hout.
  destruct (calls_members cs st Hnd Hfresh Hout) as [Hnd' Hset].
  split_and!; [|done|done|].
  - intros ws w Hacc. by rewrite (connect_run ws st w Hacc).
  - rewrite <- Hset. unfold metrics, active_len, outcome. simpl.
    by rewrite size_list_to_set.
Qed.

(** C8, as the code has it.  In [connect], [disconnect] and [broadcast]
    every access to [active], the clean-up after the pass included, is made
    between the acquisition of the lock and its release, the lock is not
    requested while held and is free when the method ends, on every way
    out. *)
Theorem manager_holds_lock ws message sender st :
  lock_discipline false (events (connect ws st)) = true
  ∧ lock_discipline false (events (disconnect ws st)) = true
  ∧ lock_discipline false (events (broadcast message sender st)) = true.
Proof.
  split_and!.
  - destruct (accept ws (world st)) as [[[]|e] w] eqn:Hacc.
    + by rewrite (connect_run ws st w Hacc).
    + by rewrite (connect_refused ws st e w Hacc).
  - destruct (disconnect_run ws st) as (evs & -> & Hacc).
    unfold events. cbn [snd lock_discipline negb andb].
    by rewrite lock_discipline_accesses.
  - destruct (broadcast_run message sender st)
      as (r & st' & sends & tidy & -> & Hsends & Hacc & _).
    unfold events. cbn [snd lock_discipline negb andb].
    rewrite lock_discipline_sends by done.
    by rewrite lock_discipline_accesses.
Qed.

End Sequences.

(** * The theorems at work *)

Lemma broadcast_fault_isolation_witness :
  interrupted (events (broadcast "hi" (Some 1) room)) = false
  ∧ attempted (events (broadcast "hi" (Some 1) room)) = [2; 3; 4]
  ∧ failed (events (broadcast "hi" (Some 1) room)) = [3]
  ∧ 3 ∉ active (final (broadcast "hi" (Some 1) room)).
Proof.
  assert (interrupted (events (broadcast "hi" (Some 1) room)) = false) as Hni
    by (vm_compute; reflexivity).
  destruct (broadcast_fault_isolation "hi" (Some 1) room Hni) as (_ & Hall & _ & Hgone).
  split_and!; [done|exact Hall|vm_compute; reflexivity|].
  apply Hgone.
  - unfold room. cbn [active]. apply (bool_decide_unpack _). vm_compute. exact I.
  - apply (bool_decide_unpack _). vm_compute. exact I.
Defined.

Lemma broadcast_returns_witness :
  (∀ ws text (w : unit) e w', send_text ws text w = (Raise e, w') →
                              isinstance_Exception e = true)
  ∧ outcome (broadcast "hi" None dead_room) = Ok tt
  ∧ failed (events (broadcast "hi" None dead_room)) = [1; 2; 3].
Proof.
  assert (∀ ws text (w : unit) e w', send_text ws text w = (Raise e, w') →
                                     isinstance_Exception e = true) as Hsend.
  { intros ws text w e w' Heq. simpl in Heq. injection Heq as <- _. reflexivity. }
  split_and!; [exact Hsend| |vm_compute; reflexivity].
  exact (broadcast_returns "hi" None dead_room Hsend).
Defined.

Lemma relay_to_others_witness :
  receive_text 1 (world chat) = (Ok "hi", quiet)
  ∧ texts (events (relay 1 "Alice" chat)) = ["Alice: hi"; "Alice: hi"]
  ∧ attempted (events (relay 1 "Alice" chat)) = [2; 3].
Proof.
  assert (receive_text 1 (world chat) = (Ok "hi", quiet)) as Hrecv by reflexivity.
  destruct (relay_to_others 1 "Alice" "hi" chat quiet Hrecv) as (_ & _ & _ & Hall).
  split_and!; [exact Hrecv|vm_compute; reflexivity|].
  destruct Hall as [_ ->]; vm_compute; reflexivity.
Defined.

Lemma welcome_after_join_witness :
  accept 4 (world chat) = (Ok tt, world chat)
  ∧ ∃ r rest,
      events (websocket_broadcast 1 4 "Dora" chat) =
      events (connect 4 chat)
      ++ ActiveRead
      :: EvSend 4
           ("Bienvenue " +:+ "Dora" +:+ ", il y a "
            +:+ pretty (length (active (final (connect 4 chat))))
            +:+ " connecte(s).") r
      :: rest.
Proof.
  assert (accept 4 (world chat) = (Ok tt, world chat)) as Hacc by reflexivity.
  split; [exact Hacc|].
  exact (proj2 (proj2 (welcome_after_join 1 4 "Dora" chat (world chat) Hacc))).
Defined.

Lemma registry_size_witness :
  NoDup (active (State quiet []))
  ∧ joins_fresh (list_to_set (active (State quiet []))) [Join 1; Join 2; Leave 1; Join 3] = true
  ∧ outcome (calls [Join 1; Join 2; Leave 1; Join 3] (State quiet [])) = Ok tt
  ∧ outcome (metrics (final (calls [Join 1; Join 2; Leave 1; Join 3] (State quiet [])))) =
    Ok (size (joined (list_to_set (active (State quiet []))) [Join 1; Join 2; Leave 1; Join 3])).
Proof.
  assert (NoDup (active (State quiet []))) as Hnd by apply NoDup_nil_2.
  assert (joins_fresh (list_to_set (active (State quiet [])))
            [Join 1; Join 2; Leave 1; Join 3] = true) as Hfresh
    by (vm_compute; reflexivity).
  assert (outcome (calls [Join 1; Join 2; Leave 1; Join 3] (State quiet [])) = Ok tt)
    as Hout by (vm_compute; reflexivity).
  split_and!; [exact Hnd|exact Hfresh|exact Hout|].
  exact (proj2 (proj2 (proj2
    (registry_size [Join 1; Join 2; Leave 1; Join 3] (State quiet []) Hnd Hfresh Hout)))).
Defined.

(** ** Where the code parts from the text of the specification *)

(** Against C1: a second [connect] of a registered connection appends it
    again; the registry then holds it twice and the size reported is two,
    for one connection that has joined and not left. *)
Lemma double_join_counted_twice :
  outcome (calls [Join 1; Join 1] (State quiet [])) = Ok tt
  ∧ active (final (calls [Join 1; Join 1] (State quiet []))) = [1; 1]
  ∧ ¬ NoDup (active (final (calls [Join 1; Join 1] (State quiet []))))
  ∧ outcome (metrics (final (calls [Join 1; Join 1] (State quiet [])))) = Ok 2
  ∧ size (joined ∅ [Join 1; Join 1]) = 1.
Proof.
  split_and!; try (vm_compute; reflexivity).
  change (¬ NoDup [1; 1]). intros Hnd. apply NoDup_cons in Hnd as [Hnd _].
  apply Hnd. by left.
Qed.

(** Against C2: with a connection registered twice and only its first
    send failing, the pass returns and the connection, whose send failed, is
    still registered; and when the send after a failed one raises
    [CancelledError], the connections after it are not tried, [broadcast]
    does not return and the failed connection stays registered. *)
Lemma failed_send_not_isolated :
  (outcome (broadcast "hi" None twice_registered) = Ok tt
   ∧ failed (events (broadcast "hi" None twice_registered)) = [2]
   ∧ active (final (broadcast "hi" None twice_registered)) = [3; 2])
  ∧ (outcome (broadcast "hi" None cut_short) = Raise CancelledError
     ∧ events (broadcast "hi" None cut_short) =
       [LockAcquire; ActiveRead; EvSend 1 "hi" (Raise RuntimeError);
        EvSend 2 "hi" (Raise CancelledError); LockRelease]
     ∧ attempted (events (broadcast "hi" None cut_short)) = [1; 2]
     ∧ active (final (broadcast "hi" None cut_short)) = [1; 2; 3]).
Proof.
  split; split_and!; vm_compute; reflexivity.
Qed.

(** Against C5: client 1 sends [hi] to a room of three and the send to 2
    raises [CancelledError]: member 3, who is not the sender, is never sent
    the text. *)
Lemma relay_cut_short :
  received (events (relay 1 "Alice" cancelled_relay)) = ["hi"]
  ∧ active cancelled_relay = [1; 2; 3]
  ∧ attempted (events (relay 1 "Alice" cancelled_relay)) = [2]
  ∧ outcome (relay 1 "Alice" cancelled_relay) = Raise CancelledError.
Proof. split_and!; vm_compute; reflexivity. Qed.

(** Against C8: [/metrics] and the welcome of the broadcast endpoint read
    the size of [active] with the lock not held. *)
Lemma size_read_without_lock :
  events (metrics (State quiet [1; 2])) = [ActiveRead]
  ∧ lock_discipline false (events (metrics (State quiet [1; 2]))) = false
  ∧ lock_discipline false (events (websocket_broadcast 0 1 "Alice" (State quiet []))) = false.
Proof. split_and!; vm_compute; reflexivity. Qed.

(** Against C9: a send that raises [CancelledError] is not caught; the
    exception leaves [broadcast], the recipients after it are not tried and
    nothing is removed. *)
Lemma cancellation_leaves_broadcast :
  outcome (broadcast "hi" None cancelled_room) = Raise CancelledError
  ∧ attempted (events (broadcast "hi" None cancelled_room)) = [1]
  ∧ active (final (broadcast "hi" None cancelled_room)) = [1; 2].
Proof. split_and!; vm_compute; reflexivity. Qed.

(** ** The scenarios of the specification *)

Example scenario_B_alice :
  events (websocket_broadcast 0 1 "Alice" (State quiet [])) =
  [EvAccept 1 (Ok tt); LockAcquire; ActiveWrite; LockRelease; ActiveRead;
   EvSend 1 "Bienvenue Alice, il y a 1 connecte(s)." (Ok tt)].
Proof. vm_compute. reflexivity. Qed.

Example scenario_B_bob :
  texts (events (websocket_broadcast 0 2 "Bob" (State quiet [1]))) =
  ["Bienvenue Bob, il y a 2 connecte(s)."].
Proof. vm_compute. reflexivity. Qed.

Example scenario_B_hi :
  events (relay 1 "Alice" (State (Net [] [Ok "hi"]) [1; 2])) =
  [EvReceive 1 (Ok "hi"); LockAcquire; ActiveRead; EvSend 2 "Alice: hi" (Ok tt);
   LockRelease].
Proof. vm_compute. reflexivity. Qed.

Example scenario_C :
  let after := final (relay 1 "A" (State (Net [Raise RuntimeError] [Ok "hello"]) [1; 2])) in
  active after = [1] ∧ outcome (metrics after) = Ok 1.
Proof. vm_compute. done. Qed.

(** * Further properties of the manager *)

Section Manager.
Context {World : Type} `{!Transport World}.
Implicit Types (st : @state World) (ws : WebSocket).

Lemma broadcast_recipients message sender st :
  attempted (events (broadcast message sender st)) `prefix_of` others sender (active st)
  ∧ Forall (λ text, text = message) (texts (events (broadcast message sender st))).
Proof.
  destruct (broadcast_run message sender st)
    as (r & st' & sends & tidy & -> & _ & Hacc & Htexts & Hpre & _).
  unfold events. cbn [snd].
  by destruct (pass_observed sends tidy Hacc) as (-> & -> & _).
Qed.

Lemma broadcast_registry message sender st :
  match outcome (broadcast message sender st) with
  | Ok _ =>
      active (final (broadcast message sender st)) =
      discard_all (failed (events (broadcast message sender st))) (active st)
  | Raise _ => active (final (broadcast message sender st)) = active st
  end.
Proof.
  destruct (broadcast_run message sender st)
    as (r & st' & sends & tidy & -> & _ & Hacc & _ & _ & Hr).
  unfold events, outcome, final. cbn [fst snd].
  destruct (pass_observed sends tidy Hacc) as (_ & _ & -> & _).
  destruct r as [[]|e]; [by destruct Hr as (_ & -> & _)|by destruct Hr as (_ & _ & -> & _)].
Qed.

Lemma list_remove_app x (l k l' : list WebSocket) :
  list_remove x l = Some k → list_remove x (l ++ l') = Some (k ++ l').
Proof.
  revert k. induction l as [|y l IH]; simpl; [done|]. intros k.
  destruct (decide (y = x)); [by intros [= ->]|].
  destruct (list_remove x l) as [k'|]; [|done]. intros [= <-].
  by rewrite (IH k' eq_refl).
Qed.

Lemma list_remove_snoc x (l : list WebSocket) :
  x ∉ l → list_remove x (l ++ [x]) = Some l.
Proof.
  induction l as [|y l IH]; simpl; intros Hout.
  - by rewrite decide_True.
  - apply not_elem_of_cons in Hout as [Hne Hout].
    rewrite decide_False by congruence. by rewrite IH.
Qed.

(** X1. A join followed by a leave of the same connection gives back the
    registry as it was when the connection was not registered before; when it
    was, the older occurrence is the one removed and the new one stays at the
    end. *)
Theorem join_then_leave ws st w :
  accept ws (world st) = (Ok tt, w) →
  (ws ∉ active st →
   active (final (disconnect ws (final (connect ws st)))) = active st)
  ∧ (ws ∈ active st →
     active (final (disconnect ws (final (connect ws st)))) =
     discard ws (active st) ++ [ws]).
Proof.
  intros Hacc. rewrite (connect_run ws st w Hacc).
  destruct (disconnect_fields ws (State w (active st ++ [ws]))) as [_ Hfin].
  unfold final at 2 4. cbn [fst snd]. rewrite Hfin. cbn [active].
  unfold discard. split; intros Hws.
  - by rewrite list_remove_snoc.
  - destruct (list_remove_elem ws _ Hws) as [k Hk].
    by rewrite (list_remove_app _ _ _ _ Hk), Hk.
Qed.

(** X2. A registry without repetition stays so through [disconnect] and
    through [broadcast], however the pass ends; through an accepted [connect]
    it does exactly when the connection was not registered. *)
Theorem registry_stays_duplicate_free ws message sender st :
  NoDup (active st) →
  NoDup (active (final (disconnect ws st)))
  ∧ NoDup (active (final (broadcast message sender st)))
  ∧ (∀ w, accept ws (world st) = (Ok tt, w) →
          (NoDup (active (final (connect ws st))) ↔ ws ∉ active st)).
Proof.
  intros Hnd. split_and!.
  - destruct (disconnect_fields ws st) as [_ ->]. cbn [active].
    eapply sublist_NoDup; [done|apply discard_sublist].
  - pose proof (broadcast_registry message sender st) as Hreg.
    destruct (outcome (broadcast message sender st)); rewrite Hreg; [|done].
    eapply sublist_NoDup; [done|apply discard_all_sublist].
  - intros w Hacc. rewrite (connect_run ws st w Hacc). unfold final. cbn [fst snd active].
    rewrite NoDup_app. split.
    + intros (_ & Hsep & _) Hin. apply (Hsep ws Hin). by left.
    + intros Hout. split_and!; [done| |apply NoDup_singleton].
      intros x Hx ->%list_elem_of_singleton. done.
Qed.

Lemma deliver_nobody message sender connections to_remove st :
  others sender connections = [] →
  deliver message sender connections to_remove st = (Ok to_remove, st, []).
Proof.
  induction connections as [|c rest IH]; [done|]. simpl.
  destruct (is_sender sender c) eqn:Hs.
  - rewrite others_cons_sender by done. exact IH.
  - by rewrite others_cons_other.
Qed.

(** X3. With nobody to send to, the registry being empty or holding the
    sender alone, [broadcast] takes the lock, reads the registry, releases
    the lock and returns: no send is made and the network and the registry
    are untouched. *)
Theorem broadcast_nobody message sender st :
  others sender (active st) = [] →
  broadcast message sender st = (Ok tt, st, [LockAcquire; ActiveRead; LockRelease]).
Proof.
  intros Hnone. unfold broadcast. rewrite with_lock_run.
  unfold mbind, M_bind, bind, active_list. cbn [fst snd].
  rewrite (deliver_nobody message sender (active st) [] st Hnone).
  simpl. unfold outcome, final, events. by destruct st.
Qed.

(** X4. A pass in which every send returns leaves the registry exactly as
    it was. *)
Theorem broadcast_all_delivered message sender st :
  failed (events (broadcast message sender st)) = [] →
  active (final (broadcast message sender st)) = active st.
Proof.
  intros Hnone. pose proof (broadcast_registry message sender st) as Hreg.
  destruct (outcome (broadcast message sender st)); rewrite Hreg; [|done].
  by rewrite Hnone.
Qed.

Lemma discard_first ws (l1 l2 : list WebSocket) :
  ws ∉ l1 → discard ws (l1 ++ ws :: l2) = l1 ++ l2.
Proof.
  unfold discard. induction l1 as [|y l1 IH]; simpl; intros Hout.
  - by rewrite decide_True.
  - apply not_elem_of_cons in Hout as [Hne Hout].
    rewrite decide_False by congruence. specialize (IH Hout).
    destruct (list_remove ws (l1 ++ ws :: l2)) as [k|]; simpl in *; [congruence|].
    exfalso. apply (f_equal length) in IH. rewrite !length_app in IH. simpl in IH. lia.
Qed.

(** X5. [disconnect] removes the oldest occurrence of the connection: the
    connections joined before it and after it keep their places. *)
Theorem disconnect_removes_oldest ws st l1 l2 :
  active st = l1 ++ ws :: l2 → ws ∉ l1 →
  active (final (disconnect ws st)) = l1 ++ l2.
Proof.
  intros Hact Hout. destruct (disconnect_fields ws st) as [_ ->]. cbn [active].
  rewrite Hact. by apply discard_first.
Qed.

(** X6. With a registry without repetition, a connection whose send failed
    in a pass that returned is not sent to by any later broadcast made on the
    registry that pass left. *)
Theorem failed_not_tried_again message sender message' sender' st c :
  NoDup (active st) →
  outcome (broadcast message sender st) = Ok tt →
  c ∈ failed (events (broadcast message sender st)) →
  c ∉ attempted (events (broadcast message' sender' (final (broadcast message sender st)))).
Proof.
  intros Hnd Hout Hc Hin.
  pose proof (broadcast_registry message sender st) as Hreg. rewrite Hout in Hreg.
  destruct (broadcast_recipients message' sender' (final (broadcast message sender st)))
    as [[k Hk] _].
  assert (c ∈ others sender' (active (final (broadcast message sender st)))) as Hc'.
  { rewrite Hk. apply elem_of_app. by left. }
  apply others_elem in Hc' as [_ Hc']. rewrite Hreg in Hc'.
  rewrite discard_all_filter in Hc' by done.
  apply list_elem_of_filter in Hc' as [Hc' _]. done.
Qed.

(** X7. Whatever the network does, [broadcast] sends nothing but the message
    it was given, and sends it to registered connections only, at most once
    for each time a connection is registered and never to the sender. *)
Theorem broadcast_sends_message_to_members message sender st :
  Forall (λ text, text = message) (texts (events (broadcast message sender st)))
  ∧ attempted (events (broadcast message sender st)) `sublist_of` active st
  ∧ (∀ c, c ∈ attempted (events (broadcast message sender st)) → sender ≠ Some c).
Proof.
  destruct (broadcast_recipients message sender st) as [Hpre Htexts].
  pose proof Hpre as Hpre'. split_and!; [done| |].
  - destruct Hpre as [k Hk].
    trans (others sender (active st)); [|apply sublist_filter].
    rewrite Hk. by apply sublist_inserts_r.
  - intros c Hc ->. destruct Hpre' as [k Hk].
    assert (c ∈ others (Some c) (active st)) as Hc'.
    { rewrite Hk. apply elem_of_app. by left. }
    apply others_elem in Hc' as [Hc' _]. simpl in Hc'.
    by rewrite bool_decide_eq_true_2 in Hc'.
Qed.

End Manager.

(** * The handlers from handshake to end *)

Lemma received_app evs1 evs2 : received (evs1 ++ evs2) = received evs1 ++ received evs2.
Proof. apply omap_app. Qed.

Lemma access_no_receive evs : Forall is_access evs → received evs = [].
Proof.
  induction 1 as [|ev evs Hev _ IH]; [done|].
  destruct ev; simpl in Hev; try done; exact IH.
Qed.

Lemma lock_discipline_settled evs :
  lock_discipline false evs = true → settled evs.
Proof.
  intros Hd rest. revert Hd. generalize false at 1 2.
  induction evs as [|ev evs IH]; intros held Hd; simpl in *.
  - by destruct held.
  - destruct ev, held; simpl in *; try done; by apply IH.
Qed.

Lemma settled_nil : settled [].
Proof. by intros rest. Qed.

Lemma settled_app evs1 evs2 : settled evs1 → settled evs2 → settled (evs1 ++ evs2).
Proof. intros H1 H2 rest. by rewrite <- app_assoc, H1, H2. Qed.

Lemma settled_io ev : is_io ev → settled [ev].
Proof. intros Hev rest. by destruct ev. Qed.

Lemma settled_read : settled [ActiveRead].
Proof. by intros rest. Qed.

Lemma settled_locked evs : settled evs → writes_locked false evs = true.
Proof. intros Hs. by rewrite <- (app_nil_r evs), Hs. Qed.

Lemma occurrences_discard_other x ws (l : list WebSocket) :
  x ≠ ws → occurrences ws (discard x l) = occurrences ws l.
Proof.
  intros Hne. unfold occurrences, discard. f_equal.
  induction l as [|y l IH]; simpl; [done|].
  destruct (decide (y = x)) as [->|Hy]; simpl.
  - by rewrite filter_cons_False by congruence.
  - destruct (list_remove x l) as [k|]; simpl in *; [|done].
    destruct (decide (y = ws)) as [->|Hyw].
    + rewrite !filter_cons_True by done. by rewrite IH.
    + rewrite !filter_cons_False by done. exact IH.
Qed.

Lemma occurrences_discard_all ws xs (l : list WebSocket) :
  ws ∉ xs → occurrences ws (discard_all xs l) = occurrences ws l.
Proof.
  revert l. induction xs as [|x xs IH]; intros l Hout; simpl; [done|].
  apply not_elem_of_cons in Hout as [Hne Hout].
  rewrite IH by done. by apply occurrences_discard_other.
Qed.

Section Sessions.
Context {World : Type} `{!Transport World}.
Implicit Types (st : @state World) (ws : WebSocket).

Lemma run_outcome {A} (r : result A) st evs : outcome (r, st, evs) = r.
Proof. done. Qed.

Lemma run_final {A} (r : result A) st evs : final (r, st, evs) = st.
Proof. done. Qed.

Lemma run_events {A} (r : result A) st evs : events (r, st, evs) = evs.
Proof. done. Qed.

Lemma bind_Raise {A B} (m : M A) (k : A → M B) st e :
  outcome (m st) = Raise e →
  bind m k st = (Raise e, final (m st), events (m st)).
Proof.
  unfold bind, outcome, final, events.
  destruct (m st) as [[r st1] evs1]. simpl. by intros ->.
Qed.

Lemma disconnect_locked ws st : lock_discipline false (events (disconnect ws st)) = true.
Proof.
  destruct (disconnect_run ws st) as (evs & -> & Hacc).
  unfold events. cbn [snd lock_discipline negb andb].
  by rewrite lock_discipline_accesses.
Qed.

Lemma broadcast_locked message sender st :
  lock_discipline false (events (broadcast message sender st)) = true.
Proof.
  destruct (broadcast_run message sender st)
    as (r & st' & sends & tidy & -> & Hsends & Hacc & _).
  unfold events. cbn [snd lock_discipline negb andb].
  rewrite lock_discipline_sends by done.
  by rewrite lock_discipline_accesses.
Qed.

Lemma broadcast_no_receive message sender st :
  received (events (broadcast message sender st)) = [].
Proof.
  destruct (broadcast_run message sender st)
    as (r & st' & sends & tidy & -> & Hsends & Hacc & _).
  unfold events. cbn [snd]. simpl. rewrite !received_app.
  rewrite (access_no_receive tidy Hacc). simpl. rewrite app_nil_r.
  clear -Hsends. induction Hsends as [|ev evs Hev _ IH]; [done|].
  destruct ev; simpl in Hev; try done; exact IH.
Qed.

Lemma broadcast_not_to_sender message ws st :
  ws ∉ attempted (events (broadcast message (Some ws) st)).
Proof.
  destruct (broadcast_recipients message (Some ws) st) as [[k Hk] _]. intros Hin.
  assert (ws ∈ others (Some ws) (active st)) as Hs.
  { rewrite Hk. apply elem_of_app. by left. }
  apply others_elem in Hs as [Hs _]. simpl in Hs.
  by rewrite bool_decide_eq_true_2 in Hs.
Qed.

Lemma broadcast_sender_stays message ws st :
  occurrences ws (active (final (broadcast message (Some ws) st))) =
  occurrences ws (active st).
Proof.
  pose proof (broadcast_registry message (Some ws) st) as Hreg.
  destruct (outcome (broadcast message (Some ws) st)); rewrite Hreg; [|done].
  apply occurrences_discard_all. intros Hin.
  apply (broadcast_not_to_sender message ws st).
  eapply elem_of_sublist; [exact Hin|apply failed_sublist].
Qed.

(** The loop of the broadcast endpoint, whatever the number of turns. *)
Lemma receive_loop_spec turns ws name st :
  occurrences ws (active (final (receive_loop turns ws name st))) =
    occurrences ws (active st)
  ∧ (ws ∉ attempted (events (receive_loop turns ws name st)))
  ∧ Forall (λ text, ∃ m, m ∈ received (events (receive_loop turns ws name st))
                          ∧ text = relay_text name m)
      (texts (events (receive_loop turns ws name st)))
  ∧ settled (events (receive_loop turns ws name st))
  ∧ (∀ s, outcome (receive_loop turns ws name st) = Ok s → s = Open).
Proof.
  revert st. induction turns as [|n IH]; intros st.
  { simpl. split_and!;
      first [done|apply not_elem_of_nil|apply settled_nil|by intros s [= <-]]. }
  change (receive_loop (S n) ws name st)
    with (bind (relay ws name) (λ _, receive_loop n ws name) st).
  destruct (receive_text ws (world st)) as [[m|e] w] eqn:Hrecv.
  - set (B := broadcast (relay_text name m) (Some ws) (State w (active st))).
    pose proof (broadcast_sender_stays (relay_text name m) ws (State w (active st))) as Hocc.
    pose proof (broadcast_not_to_sender (relay_text name m) ws (State w (active st))) as Hself.
    destruct (broadcast_recipients (relay_text name m) (Some ws) (State w (active st)))
      as [_ Htexts].
    pose proof (broadcast_no_receive (relay_text name m) (Some ws) (State w (active st)))
      as Hnorecv.
    pose proof (lock_discipline_settled _
      (broadcast_locked (relay_text name m) (Some ws) (State w (active st)))) as Hset.
    fold B in Hocc, Hself, Htexts, Hnorecv, Hset. cbn [active] in Hocc.
    assert (settled (EvReceive ws (Ok m) :: events B)) as Hset'.
    { apply (settled_app [_]); [by apply settled_io|done]. }
    assert (Forall (λ text, ∃ m', m' ∈ m :: received (events B)
                                   ∧ text = relay_text name m') (texts (events B)))
      as Htexts'.
    { eapply Forall_impl; [exact Htexts|]. intros text ->. exists m. split; [by left|done]. }
    pose proof (relay_run ws name m st w Hrecv) as Hrelay. fold B in Hrelay.
    destruct (outcome B) as [[]|e] eqn:HB.
    + rewrite (bind_Ok _ _ st tt) by (by rewrite Hrelay).
      rewrite Hrelay. rewrite !run_final, !run_events, !run_outcome.
      destruct (IH (final B)) as (Hocc' & Hself' & Htexts'' & Hset'' & Hopen).
      split_and!.
      * by rewrite Hocc', Hocc.
      * rewrite attempted_app.
        change (attempted (EvReceive ws (Ok m) :: events B)) with (attempted (events B)).
        rewrite elem_of_app. tauto.
      * rewrite texts_app, received_app.
        change (texts (EvReceive ws (Ok m) :: events B)) with (texts (events B)).
        change (received (EvReceive ws (Ok m) :: events B)) with (m :: received (events B)).
        apply Forall_app. split.
        -- eapply Forall_impl; [exact Htexts'|]. intros text (m' & Hm' & ->).
           exists m'. split; [|done]. apply elem_of_app. by left.
        -- eapply Forall_impl; [exact Htexts''|]. intros text (m' & Hm' & ->).
           exists m'. split; [|done]. apply elem_of_app. by right.
      * by apply settled_app.
      * done.
    + rewrite (bind_Raise _ _ st e) by (by rewrite Hrelay).
      rewrite Hrelay. rewrite !run_final, !run_events, !run_outcome.
      split_and!; done.
  - assert (relay ws name st = (Raise e, State w (active st), [EvReceive ws (Raise e)]))
      as Hrelay.
    { unfold relay, mbind, M_bind, bind, await_receive_text. by rewrite Hrecv. }
    rewrite (bind_Raise _ _ st e) by (by rewrite Hrelay).
    rewrite Hrelay. rewrite !run_final, !run_events, !run_outcome. cbn [active].
    split_and!; first [done|apply not_elem_of_nil|by apply settled_io].
Qed.

Lemma try_run {A} (m : M A) st :
  try m st = (Ok (outcome (m st)), final (m st), events (m st)).
Proof. unfold try. by destruct (m st) as [[r st1] evs]. Qed.

Lemma session_run turns ws name st w :
  accept ws (world st) = (Ok tt, w) →
  websocket_broadcast turns ws name st =
  (outcome (except_clauses ws
     (outcome (protected_block turns ws name (State w (active st ++ [ws]))))
     (final (protected_block turns ws name (State w (active st ++ [ws]))))),
   final (except_clauses ws
     (outcome (protected_block turns ws name (State w (active st ++ [ws]))))
     (final (protected_block turns ws name (State w (active st ++ [ws]))))),
   [EvAccept ws (Ok tt); LockAcquire; ActiveWrite; LockRelease]
   ++ events (protected_block turns ws name (State w (active st ++ [ws])))
   ++ events (except_clauses ws
     (outcome (protected_block turns ws name (State w (active st ++ [ws]))))
     (final (protected_block turns ws name (State w (active st ++ [ws])))))).
Proof.
  intros Hacc.
  change (websocket_broadcast turns ws name st)
    with (bind (connect ws)
            (λ _, bind (try (protected_block turns ws name)) (except_clauses ws)) st).
  rewrite (bind_Ok _ _ st tt) by (by rewrite (connect_run ws st w Hacc)).
  rewrite (connect_run ws st w Hacc). rewrite !run_final, !run_events.
  set (st1 := State w (active st ++ [ws])).
  rewrite (bind_Ok _ _ st1 (outcome (protected_block turns ws name st1)))
    by (by rewrite try_run).
  rewrite try_run. by rewrite !run_final, !run_events, !run_outcome.
Qed.

Lemma session_refused turns ws name st e w :
  accept ws (world st) = (Raise e, w) →
  websocket_broadcast turns ws name st =
  (Raise e, State w (active st), [EvAccept ws (Raise e)]).
Proof.
  intros Hacc.
  change (websocket_broadcast turns ws name st)
    with (bind (connect ws)
            (λ _, bind (try (protected_block turns ws name)) (except_clauses ws)) st).
  rewrite (bind_Raise _ _ st e) by (by rewrite (connect_refused ws st e w Hacc)).
  by rewrite (connect_refused ws st e w Hacc).
Qed.

Lemma protected_block_spec turns ws name st :
  occurrences ws (active (final (protected_block turns ws name st))) =
    occurrences ws (active st)
  ∧ (∃ r rest,
       events (protected_block turns ws name st) =
         ActiveRead :: EvSend ws (welcome_text name (length (active st))) r :: rest
       ∧ (ws ∉ attempted rest)
       ∧ Forall (λ text, ∃ m, m ∈ received rest ∧ text = relay_text name m) (texts rest))
  ∧ settled (events (protected_block turns ws name st))
  ∧ (∀ s, outcome (protected_block turns ws name st) = Ok s → s = Open).
Proof.
  change (protected_block turns ws name st)
    with (bind active_len
            (λ n, bind (await_send_text ws (welcome_text name n))
                       (λ _, receive_loop turns ws name)) st).
  rewrite (bind_Ok _ _ st (length (active st))) by done.
  change (final (active_len st)) with st.
  change (events (active_len st)) with [ActiveRead].
  set (text := welcome_text name (length (active st))).
  destruct (send_text ws text (world st)) as [[[]|e] w] eqn:Hsend.
  - assert (await_send_text ws text st = (Ok tt, State w (active st), [EvSend ws text (Ok tt)]))
      as Hrun by (unfold await_send_text; by rewrite Hsend).
    rewrite (bind_Ok _ _ st tt) by (by rewrite Hrun).
    rewrite Hrun. rewrite !run_final, !run_events, !run_outcome.
    destruct (receive_loop_spec turns ws name (State w (active st)))
      as (Hocc & Hself & Htexts & Hset & Hopen).
    split_and!; [exact Hocc| | |done].
    + by exists (Ok tt), (events (receive_loop turns ws name (State w (active st)))).
    + apply (settled_app [ActiveRead]); [apply settled_read|].
      apply (settled_app [EvSend ws text (Ok tt)]); [by apply settled_io|done].
  - assert (await_send_text ws text st =
            (Raise e, State w (active st), [EvSend ws text (Raise e)]))
      as Hrun by (unfold await_send_text; by rewrite Hsend).
    rewrite (bind_Raise _ _ st e) by (by rewrite Hrun).
    rewrite Hrun. rewrite !run_final, !run_events, !run_outcome. cbn [active].
    split_and!; [done| | |done].
    + exists (Raise e), []. split_and!; [done|apply not_elem_of_nil|done].
    + apply (settled_app [ActiveRead]); [apply settled_read|by apply settled_io].
Qed.

Lemma disconnect_quiet ws st :
  attempted (events (disconnect ws st)) = []
  ∧ texts (events (disconnect ws st)) = []
  ∧ received (events (disconnect ws st)) = [].
Proof.
  destruct (disconnect_run ws st) as (evs & -> & Hacc). rewrite run_events.
  destruct (access_no_send evs Hacc) as (Ha & Ht & _).
  pose proof (access_no_receive evs Hacc) as Hr. simpl.
  by rewrite attempted_app, texts_app, received_app, Ha, Ht, Hr.
Qed.

Lemma except_clauses_spec ws r st :
  attempted (events (except_clauses ws r st)) = []
  ∧ texts (events (except_clauses ws r st)) = []
  ∧ received (events (except_clauses ws r st)) = []
  ∧ settled (events (except_clauses ws r st))
  ∧ match r with
    | Ok s => outcome (except_clauses ws r st) = Ok s ∧ final (except_clauses ws r st) = st
    | Raise e =>
        if isinstance_Exception e
        then active (final (except_clauses ws r st)) = discard ws (active st)
             ∧ (outcome (except_clauses ws r st) = Ok Closed
                ∨ ∃ e', outcome (except_clauses ws r st) = Raise e'
                        ∧ isinstance_Exception e' = false)
        else outcome (except_clauses ws r st) = Raise e
             ∧ final (except_clauses ws r st) = st
    end.
Proof.
  destruct (disconnect_quiet ws st) as (Ha & Ht & Hr).
  pose proof (lock_discipline_settled _ (disconnect_locked ws st)) as Hset.
  destruct (disconnect_fields ws st) as [Hout Hfin].
  destruct r as [s|e]; [by split_and!; try apply settled_nil|].
  assert (∀ k : unit → M session,
    bind (disconnect ws) k st =
    (outcome (k tt (State (world st) (discard ws (active st)))),
     final (k tt (State (world st) (discard ws (active st)))),
     events (disconnect ws st) ++ events (k tt (State (world st) (discard ws (active st))))))
    as Hstep.
  { intros k. rewrite (bind_Ok _ _ st tt) by done. by rewrite Hfin. }
  destruct e; unfold except_clauses; cbv beta iota;
    cbn [isinstance_WebSocketDisconnect isinstance_Exception];
    unfold mbind, M_bind; cbv beta.
  - rewrite Hstep. unfold mret, M_ret, ret.
    rewrite !run_final, !run_events, !run_outcome, app_nil_r. cbn [active].
    split_and!; [done..|by left].
  - rewrite Hstep. set (st1 := State (world st) (discard ws (active st))).
    unfold try_except_Exception, mbind, M_bind, bind, try, await_close, mret, M_ret, ret, raise.
    destruct (close ws (world st1)) as [[[]|[]] w];
      rewrite !run_final, !run_events, !run_outcome;
      rewrite ?attempted_app, ?texts_app, ?received_app, ?Ha, ?Ht, ?Hr;
      (split_and!; [done|done|done|
         by apply settled_app; [|apply (settled_io (EvClose _ _))]|done|eauto]).
  - rewrite Hstep. set (st1 := State (world st) (discard ws (active st))).
    unfold try_except_Exception, mbind, M_bind, bind, try, await_close, mret, M_ret, ret, raise.
    destruct (close ws (world st1)) as [[[]|[]] w];
      rewrite !run_final, !run_events, !run_outcome;
      rewrite ?attempted_app, ?texts_app, ?received_app, ?Ha, ?Ht, ?Hr;
      (split_and!; [done|done|done|
         by apply settled_app; [|apply (settled_io (EvClose _ _))]|done|eauto]).
  - unfold raise. rewrite !run_final, !run_events, !run_outcome.
    by split_and!; try apply settled_nil.
Qed.

End Sessions.

(** ** The broadcast endpoint, from handshake to end *)

Section BroadcastEndpoint.
Context {World : Type} `{!Transport World}.
Implicit Types (st : @state World) (ws : WebSocket).

(** X8. When the handshake is refused the handler ends with the error of
    [accept]: the registry is not touched, the lock is not taken and nothing
    is sent. *)
Theorem refused_handshake_leaves_registry turns ws name st e w :
  accept ws (world st) = (Raise e, w) →
  outcome (websocket_broadcast turns ws name st) = Raise e
  ∧ active (final (websocket_broadcast turns ws name st)) = active st
  ∧ events (websocket_broadcast turns ws name st) = [EvAccept ws (Raise e)].
Proof. intros Hacc. by rewrite (session_refused turns ws name st e w Hacc). Qed.

(** X9. Once the handshake is accepted no [Exception] leaves the handler:
    whatever the welcome, the receives, the sends of the broadcasts and the
    close do, it ends normally or with an error that is not an [Exception]. *)
Theorem no_exception_leaves_session turns ws name st w e :
  accept ws (world st) = (Ok tt, w) →
  outcome (websocket_broadcast turns ws name st) = Raise e →
  isinstance_Exception e = false.
Proof.
  intros Hacc. rewrite (session_run turns ws name st w Hacc), run_outcome.
  set (st1 := State w (active st ++ [ws])).
  destruct (protected_block_spec turns ws name st1) as (_ & _ & _ & Hopen).
  destruct (except_clauses_spec ws (outcome (protected_block turns ws name st1))
              (final (protected_block turns ws name st1))) as (_ & _ & _ & _ & Hh).
  destruct (outcome (protected_block turns ws name st1)) as [s|e0].
  - destruct Hh as [-> _]. done.
  - destruct (isinstance_Exception e0) eqn:He0.
    + destruct Hh as [_ [->|(e' & -> & He')]]; [done|]. by intros [= <-].
    + destruct Hh as [-> _]. by intros [= <-].
Qed.

(** X10. A broadcast never costs its sender its registration: from every
    registry, whether the pass returns or is cut short, the sender is
    registered afterwards exactly as many times as before, and it is never
    among the connections whose send failed. *)
Theorem broadcast_keeps_its_sender message ws st :
  occurrences ws (active (final (broadcast message (Some ws) st))) =
    occurrences ws (active st)
  ∧ (ws ∉ failed (events (broadcast message (Some ws) st))).
Proof.
  split; [apply broadcast_sender_stays|]. intros Hin.
  apply (broadcast_not_to_sender message ws st).
  eapply elem_of_sublist; [exact Hin|apply failed_sublist].
Qed.

(** X11. Of all the texts a session sends, exactly one goes to its own
    client, and it is the first: the welcome. *)
Theorem one_send_to_own_client turns ws name st w :
  accept ws (world st) = (Ok tt, w) →
  ∃ rest,
    attempted (events (websocket_broadcast turns ws name st)) = ws :: rest
    ∧ ws ∉ rest.
Proof.
  intros Hacc. rewrite (session_run turns ws name st w Hacc), run_events.
  set (st1 := State w (active st ++ [ws])).
  destruct (protected_block_spec turns ws name st1)
    as (_ & (r & rest & -> & Hself & _) & _ & _).
  destruct (except_clauses_spec ws (outcome (protected_block turns ws name st1))
              (final (protected_block turns ws name st1))) as (Ha & _).
  exists (attempted rest). rewrite !attempted_app, Ha. simpl.
  by rewrite app_nil_r.
Qed.

(** X12. In every run of the handler, whatever its length and its end,
    each change of the registry is made with the lock held, the lock is never
    requested while held and it is free when the handler ends. *)
Theorem session_writes_locked turns ws name st :
  writes_locked false (events (websocket_broadcast turns ws name st)) = true.
Proof.
  destruct (accept ws (world st)) as [[[]|e] w] eqn:Hacc.
  - rewrite (session_run turns ws name st w Hacc), run_events.
    set (st1 := State w (active st ++ [ws])).
    destruct (protected_block_spec turns ws name st1) as (_ & _ & Hset & _).
    destruct (except_clauses_spec ws (outcome (protected_block turns ws name st1))
                (final (protected_block turns ws name st1))) as (_ & _ & _ & Hset' & _).
    apply settled_locked. apply settled_app; [|by apply settled_app].
    by apply lock_discipline_settled.
  - by rewrite (session_refused turns ws name st e w Hacc).
Qed.

(** X13. The first text a session sends is the welcome, with the size the
    registry has after the join; every other text it sends is the name, a
    colon, a space and a message that was received from its client in that
    session. *)
Theorem session_texts turns ws name st w :
  accept ws (world st) = (Ok tt, w) →
  ∃ rest,
    texts (events (websocket_broadcast turns ws name st)) =
      welcome_text name (S (length (active st))) :: rest
    ∧ Forall (λ text, ∃ m,
        m ∈ received (events (websocket_broadcast turns ws name st))
        ∧ text = name +:+ ": " +:+ m) rest.
Proof.
  intros Hacc. rewrite (session_run turns ws name st w Hacc), run_events.
  set (st1 := State w (active st ++ [ws])).
  destruct (protected_block_spec turns ws name st1)
    as (_ & (r & rest & -> & _ & Htexts) & _ & _).
  destruct (except_clauses_spec ws (outcome (protected_block turns ws name st1))
              (final (protected_block turns ws name st1))) as (_ & Ht & Hr & _).
  exists (texts rest). rewrite !texts_app, !received_app, Ht, Hr. simpl.
  rewrite !app_nil_r. split.
  - unfold st1. cbn [active]. rewrite length_app. simpl.
    by replace (length (active st) + 1) with (S (length (active st))) by lia.
  - exact Htexts.
Qed.

End BroadcastEndpoint.

(** ** The echo endpoint *)

Section HelloEndpoint.
Context {World : Type} `{!Transport World}.
Implicit Types (st : @state World) (ws : WebSocket).

Lemma echo_loop_spec turns ws st :
  active (final (echo_loop turns ws st)) = active st
  ∧ Forall is_io (events (echo_loop turns ws st))
  ∧ texts (events (echo_loop turns ws st)) =
    (λ m, "vous avez dit: " +:+ m) <$> received (events (echo_loop turns ws st))
  ∧ Forall (λ c, c = ws) (attempted (events (echo_loop turns ws st)))
  ∧ (∀ s, outcome (echo_loop turns ws st) = Ok s → s = Open).
Proof.
  revert st. induction turns as [|n IH]; intros st.
  { simpl. split_and!; first [done|by intros s [= <-]]. }
  change (echo_loop (S n) ws st) with (bind (echo ws) (λ _, echo_loop n ws) st).
  destruct (receive_text ws (world st)) as [[m|e] w] eqn:Hrecv.
  - destruct (send_text ws ("vous avez dit: " +:+ m) w) as [[[]|e] w'] eqn:Hsend.
    + assert (echo ws st =
              (Ok tt, State w' (active st),
               [EvReceive ws (Ok m); EvSend ws ("vous avez dit: " +:+ m) (Ok tt)])) as Hecho.
      { unfold echo, mbind, M_bind, bind, await_receive_text, await_send_text.
        rewrite Hrecv. cbn [world active]. by rewrite Hsend. }
      rewrite (bind_Ok _ _ st tt) by (by rewrite Hecho).
      rewrite Hecho, !run_final, !run_events, !run_outcome.
      destruct (IH (State w' (active st))) as (Hact & Hio & Htexts & Hto & Hopen).
      rewrite texts_app, received_app, attempted_app, fmap_app, <- Htexts.
      split_and!; [done| |done| |done].
      * apply Forall_app. split; [by repeat constructor|done].
      * apply Forall_app. split; [by repeat constructor|done].
    + assert (echo ws st =
              (Raise e, State w' (active st),
               [EvReceive ws (Ok m); EvSend ws ("vous avez dit: " +:+ m) (Raise e)])) as Hecho.
      { unfold echo, mbind, M_bind, bind, await_receive_text, await_send_text.
        rewrite Hrecv. cbn [world active]. by rewrite Hsend. }
      rewrite (bind_Raise _ _ st e) by (by rewrite Hecho).
      rewrite Hecho, !run_final, !run_events, !run_outcome.
      split_and!; [done|by repeat constructor|done|by repeat constructor|done].
  - assert (echo ws st = (Raise e, State w (active st), [EvReceive ws (Raise e)])) as Hecho.
    { unfold echo, mbind, M_bind, bind, await_receive_text. by rewrite Hrecv. }
    rewrite (bind_Raise _ _ st e) by (by rewrite Hecho).
    rewrite Hecho, !run_final, !run_events, !run_outcome.
    split_and!; [done|by repeat constructor|done|by repeat constructor|done].
Qed.

(** The handler after an accepted handshake, by the result of the first
    send, of the loop and of the close. *)
Lemma hello_run turns ws st w :
  accept ws (world st) = (Ok tt, w) →
  ∃ r w' body tail,
    websocket_hello turns ws st =
      (r, State w' (active st), EvAccept ws (Ok tt) :: body ++ tail)
    ∧ (∃ r1 rest, body = EvSend ws "Hello" r1 :: rest
                  ∧ Forall is_io rest
                  ∧ texts rest = (λ m, "vous avez dit: " +:+ m) <$> received rest
                  ∧ Forall (λ c, c = ws) (attempted rest))
    ∧ (tail = [] ∧ (∀ e, r = Raise e → isinstance_Exception e = false)
       ∨ ∃ rc, tail = [EvClose ws rc]
               ∧ (∀ e, r = Raise e → isinstance_Exception e = true → rc = Raise e)).
Proof.
  intros Hacc.
  unfold websocket_hello, mbind, M_bind. unfold bind at 1. unfold await_accept at 1.
  rewrite Hacc. unfold bind at 1. rewrite try_run.
  set (st1 := State w (active st)).
  assert (∃ r1 rest,
    events (bind (await_send_text ws "Hello") (λ _, echo_loop turns ws) st1) =
      EvSend ws "Hello" r1 :: rest
    ∧ Forall is_io rest
    ∧ texts rest = (λ m, "vous avez dit: " +:+ m) <$> received rest
    ∧ Forall (λ c, c = ws) (attempted rest)
    ∧ active (final (bind (await_send_text ws "Hello") (λ _, echo_loop turns ws) st1)) =
      active st
    ∧ (∀ s, outcome (bind (await_send_text ws "Hello") (λ _, echo_loop turns ws) st1) = Ok s
            → s = Open)) as (r1 & rest & Hev & Hio & Htexts & Hto & Hact & Hopen).
  { destruct (send_text ws "Hello" (world st1)) as [[[]|e] w1] eqn:Hsend.
    - assert (await_send_text ws "Hello" st1 =
              (Ok tt, State w1 (active st), [EvSend ws "Hello" (Ok tt)])) as Hrun
        by (unfold await_send_text; by rewrite Hsend).
      rewrite (bind_Ok _ _ st1 tt) by (by rewrite Hrun).
      rewrite Hrun, !run_final, !run_events, !run_outcome.
      destruct (echo_loop_spec turns ws (State w1 (active st)))
        as (Hact & Hio & Htexts & Hto & Hopen).
      by exists (Ok tt), (events (echo_loop turns ws (State w1 (active st)))).
    - assert (await_send_text ws "Hello" st1 =
              (Raise e, State w1 (active st), [EvSend ws "Hello" (Raise e)])) as Hrun
        by (unfold await_send_text; by rewrite Hsend).
      rewrite (bind_Raise _ _ st1 e) by (by rewrite Hrun).
      rewrite Hrun, !run_final, !run_events, !run_outcome.
      by exists (Raise e), []. }
  rewrite Hev.
  destruct (bind (await_send_text ws "Hello") (λ _, echo_loop turns ws) st1)
    as [[rb st2] evsb]. rewrite run_outcome, run_final in *. clear Hev.
  destruct st2 as [w2 l2]. cbn [active] in Hact. subst l2.
  unfold try_except_Exception, mbind, M_bind, bind, try, await_close, mret, M_ret, ret, raise.
  destruct rb as [s|[]]; cbn [isinstance_WebSocketDisconnect isinstance_Exception world active];
    try match goal with |- context [close ws w2] =>
          destruct (close ws w2) as [[[]|[]] w3] end;
    rewrite ?run_final; cbn [world];
    (eexists _, _, (EvSend ws "Hello" r1 :: rest), _; split; [reflexivity|];
     split; [by exists r1, rest|];
     first [by left; split; [reflexivity|intros e [= <-]]
           |by left; split; [reflexivity|done]
           |right; eexists; split; [reflexivity|]; intros e [= <-]; done
           |right; eexists; split; [reflexivity|]; done]).
Qed.

Lemma hello_refused turns ws st e w :
  accept ws (world st) = (Raise e, w) →
  websocket_hello turns ws st = (Raise e, State w (active st), [EvAccept ws (Raise e)]).
Proof.
  intros Hacc. unfold websocket_hello, mbind, M_bind. unfold bind at 1.
  unfold await_accept. by rewrite Hacc.
Qed.

(** X14. After an accepted handshake the texts the echo handler sends are
    [Hello] and then, for each message it received and in that order, the
    message behind the words [vous avez dit: ]; all of them go to the
    client of the handler. *)
Theorem hello_transcript turns ws st w :
  accept ws (world st) = (Ok tt, w) →
  texts (events (websocket_hello turns ws st)) =
    "Hello" :: ((λ m, "vous avez dit: " +:+ m)
                  <$> received (events (websocket_hello turns ws st)))
  ∧ Forall (λ c, c = ws) (attempted (events (websocket_hello turns ws st))).
Proof.
  intros Hacc.
  destruct (hello_run turns ws st w Hacc)
    as (r & w' & body & tail & -> & (r1 & rest & -> & _ & Htexts & Hto) & Htail).
  rewrite run_events.
  assert (texts tail = [] ∧ received tail = [] ∧ attempted tail = []) as (Ht & Hr & Ha).
  { by destruct Htail as [[-> _]|(rc & -> & _)]. }
  change (texts (EvAccept ws (Ok tt) :: ?l)) with (texts l).
  change (received (EvAccept ws (Ok tt) :: ?l)) with (received l).
  change (attempted (EvAccept ws (Ok tt) :: ?l)) with (attempted l).
  rewrite texts_app, received_app, attempted_app, Ht, Hr, Ha, !app_nil_r.
  split.
  - change (texts (EvSend ws "Hello" r1 :: rest)) with ("Hello" :: texts rest).
    change (received (EvSend ws "Hello" r1 :: rest)) with (received rest).
    by rewrite Htexts.
  - change (attempted (EvSend ws "Hello" r1 :: rest)) with (ws :: attempted rest).
    by constructor.
Qed.

(** X15. The echo handler has no part in the registry: in every run,
    with the handshake accepted or refused and however it ends, it only
    awaits operations of its websocket, never takes the lock, and leaves the
    registry as it found it. *)
Theorem hello_leaves_registry turns ws st :
  active (final (websocket_hello turns ws st)) = active st
  ∧ Forall is_io (events (websocket_hello turns ws st)).
Proof.
  destruct (accept ws (world st)) as [[[]|e] w] eqn:Hacc.
  - destruct (hello_run turns ws st w Hacc)
      as (r & w' & body & tail & -> & (r1 & rest & -> & Hio & _) & Htail).
    rewrite run_final, run_events. split; [done|].
    constructor; [done|]. apply Forall_app. split.
    + by constructor.
    + destruct Htail as [[-> _]|(rc & -> & _)]; by repeat constructor.
  - rewrite (hello_refused turns ws st e w Hacc). split; [done|].
    by repeat constructor.
Qed.

(** X16. After an accepted handshake an [Exception] leaves the echo
    handler in one case only: the close made after the peer went away has
    raised it.  It is then the last thing the handler did. *)
Theorem hello_exception_is_from_close turns ws st w e :
  accept ws (world st) = (Ok tt, w) →
  outcome (websocket_hello turns ws st) = Raise e →
  isinstance_Exception e = true →
  last (events (websocket_hello turns ws st)) = Some (EvClose ws (Raise e)).
Proof.
  intros Hacc.
  destruct (hello_run turns ws st w Hacc)
    as (r & w' & body & tail & -> & _ & Htail).
  rewrite run_outcome, run_events. intros -> He.
  destruct Htail as [[_ Hno]|(rc & -> & Hrc)].
  - rewrite (Hno e eq_refl) in He. done.
  - rewrite (Hrc e eq_refl He), app_comm_cons. apply last_snoc.
Qed.

End HelloEndpoint.

(** ** The texts *)

Lemma string_app_assoc (s1 s2 s3 : string) : (s1 +:+ s2) +:+ s3 = s1 +:+ (s2 +:+ s3).
Proof.
  induction s1 as [|a s1 IH]; [reflexivity|].
  change (String a ((s1 +:+ s2) +:+ s3) = String a (s1 +:+ s2 +:+ s3)).
  by rewrite IH.
Qed.

Lemma string_app_inv_head (s s1 s2 : string) : s +:+ s1 = s +:+ s2 → s1 = s2.
Proof.
  induction s as [|a s IH]; [by intros Heq|].
  change (String a (s +:+ s1) = String a (s +:+ s2) → s1 = s2).
  intros [= Heq]. by apply IH.
Qed.

(** X17. The text that the others receive does not tell where the name
    ends: a client named [name: k] that sends [m] and a client named [name]
    that sends [k: m] are relayed as the same text. *)
Theorem relay_text_ambiguous name k m :
  relay_text (name +:+ ": " +:+ k) m = relay_text name (k +:+ ": " +:+ m).
Proof. unfold relay_text. by rewrite !string_app_assoc. Qed.

(** X18. For a given name, [relay_text] and the greeting of
    [/hello/{name}] keep messages and names apart: two messages relayed for
    one name give the same text only if they are the same message, two names
    are greeted alike only if they are the same name, and the greeting is
    that of [/] for the name [World] and no other. *)
Theorem texts_injective name m1 m2 n1 n2 :
  (relay_text name m1 = relay_text name m2 → m1 = m2)
  ∧ (say_hello n1 = say_hello n2 → n1 = n2)
  ∧ (say_hello name = root ↔ name = "World").
Proof.
  assert (∀ a b, say_hello a = say_hello b → a = b) as Hinj.
  { unfold say_hello. intros a b Heq. apply (string_app_inv_head "Hello ").
    congruence. }
  split_and!.
  - unfold relay_text. intros Heq.
    apply string_app_inv_head in Heq. by apply (string_app_inv_head ": ").
  - apply Hinj.
  - split; [|by intros ->]. intros Heq. by apply Hinj.
Qed.

(** ** These properties at work *)

Lemma join_then_leave_witness :
  accept 4 (world chat) = (Ok tt, world chat)
  ∧ active (final (disconnect 4 (final (connect 4 chat)))) = active chat.
Proof.
  assert (accept 4 (world chat) = (Ok tt, world chat)) as Hacc by reflexivity.
  split; [exact Hacc|].
  apply (proj1 (join_then_leave 4 chat (world chat) Hacc)).
  apply (bool_decide_unpack _). vm_compute. exact I.
Defined.

Lemma registry_stays_duplicate_free_witness :
  NoDup (active chat)
  ∧ NoDup (active (final (disconnect 2 chat)))
  ∧ NoDup (active (final (broadcast "hi" None chat))).
Proof.
  assert (NoDup (active chat)) as Hnd.
  { apply (bool_decide_unpack _). vm_compute. exact I. }
  destruct (registry_stays_duplicate_free 2 "hi" None chat Hnd) as (H1 & H2 & _).
  by split_and!.
Defined.

Lemma broadcast_nobody_witness :
  others (Some 1) (active alone) = []
  ∧ broadcast "hi" (Some 1) alone = (Ok tt, alone, [LockAcquire; ActiveRead; LockRelease]).
Proof.
  assert (others (Some 1) (active alone) = []) as Hnone by (vm_compute; reflexivity).
  split; [exact Hnone|]. exact (broadcast_nobody "hi" (Some 1) alone Hnone).
Defined.

Lemma broadcast_all_delivered_witness :
  failed (events (broadcast "hi" None chat)) = []
  ∧ active (final (broadcast "hi" None chat)) = active chat.
Proof.
  assert (failed (events (broadcast "hi" None chat)) = []) as Hnone
    by (vm_compute; reflexivity).
  split; [exact Hnone|]. exact (broadcast_all_delivered "hi" None chat Hnone).
Defined.

Lemma disconnect_removes_oldest_witness :
  active crowded = [1] ++ 2 :: [3; 2]
  ∧ (2 ∉ [1])
  ∧ active (final (disconnect 2 crowded)) = [1] ++ [3; 2].
Proof.
  assert (active crowded = [1] ++ 2 :: [3; 2]) as Hact by reflexivity.
  assert (2 ∉ [1]) as Hout.
  { apply (bool_decide_unpack _). vm_compute. exact I. }
  split_and!; [exact Hact|exact Hout|].
  exact (disconnect_removes_oldest 2 crowded [1] [3; 2] Hact Hout).
Defined.

Lemma failed_not_tried_again_witness :
  NoDup (active room)
  ∧ outcome (broadcast "hi" (Some 1) room) = Ok tt
  ∧ 3 ∈ failed (events (broadcast "hi" (Some 1) room))
  ∧ 3 ∉ attempted (events (broadcast "ho" None (final (broadcast "hi" (Some 1) room)))).
Proof.
  assert (NoDup (active room)) as Hnd.
  { apply (bool_decide_unpack _). vm_compute. exact I. }
  assert (outcome (broadcast "hi" (Some 1) room) = Ok tt) as Hout
    by (vm_compute; reflexivity).
  assert (3 ∈ failed (events (broadcast "hi" (Some 1) room))) as Hin.
  { apply (bool_decide_unpack _). vm_compute. exact I. }
  split_and!; [exact Hnd|exact Hout|exact Hin|].
  exact (failed_not_tried_again "hi" (Some 1) "ho" None room 3 Hnd Hout Hin).
Defined.

Lemma refused_handshake_leaves_registry_witness :
  accept 3 (world refusing) = (Raise RuntimeError, world refusing)
  ∧ outcome (websocket_broadcast 2 3 "Carla" refusing) = Raise RuntimeError
  ∧ active (final (websocket_broadcast 2 3 "Carla" refusing)) = active refusing
  ∧ events (websocket_broadcast 2 3 "Carla" refusing) = [EvAccept 3 (Raise RuntimeError)].
Proof.
  assert (accept 3 (world refusing) = (Raise RuntimeError, world refusing)) as Hacc
    by reflexivity.
  split; [exact Hacc|].
  exact (refused_handshake_leaves_registry 2 3 "Carla" refusing RuntimeError
           (world refusing) Hacc).
Defined.

Lemma no_exception_leaves_session_witness :
  accept 1 (world cancelled_room) = (Ok tt, world cancelled_room)
  ∧ outcome (websocket_broadcast 2 1 "Alice" cancelled_room) = Raise CancelledError
  ∧ isinstance_Exception CancelledError = false.
Proof.
  assert (accept 1 (world cancelled_room) = (Ok tt, world cancelled_room)) as Hacc
    by reflexivity.
  assert (outcome (websocket_broadcast 2 1 "Alice" cancelled_room) = Raise CancelledError)
    as Hout by (vm_compute; reflexivity).
  split_and!; [exact Hacc|exact Hout|].
  exact (no_exception_leaves_session 2 1 "Alice" cancelled_room (world cancelled_room)
           CancelledError Hacc Hout).
Defined.

Lemma one_send_to_own_client_witness :
  accept 4 (world chat) = (Ok tt, world chat)
  ∧ ∃ rest,
      attempted (events (websocket_broadcast 3 4 "Dora" chat)) = 4 :: rest
      ∧ 4 ∉ rest.
Proof.
  assert (accept 4 (world chat) = (Ok tt, world chat)) as Hacc by reflexivity.
  split; [exact Hacc|].
  exact (one_send_to_own_client 3 4 "Dora" chat (world chat) Hacc).
Defined.

Lemma session_texts_witness :
  accept 4 (world chat) = (Ok tt, world chat)
  ∧ ∃ rest,
      texts (events (websocket_broadcast 3 4 "Dora" chat)) =
        welcome_text "Dora" (S (length (active chat))) :: rest
      ∧ Forall (λ text, ∃ m,
          m ∈ received (events (websocket_broadcast 3 4 "Dora" chat))
          ∧ text = "Dora" +:+ ": " +:+ m) rest.
Proof.
  assert (accept 4 (world chat) = (Ok tt, world chat)) as Hacc by reflexivity.
  split; [exact Hacc|].
  exact (session_texts 3 4 "Dora" chat (world chat) Hacc).
Defined.

Lemma hello_transcript_witness :
  accept 1 (world two_messages) = (Ok tt, world two_messages)
  ∧ texts (events (websocket_hello 5 1 two_messages)) =
    "Hello" :: ((λ m, "vous avez dit: " +:+ m)
                  <$> received (events (websocket_hello 5 1 two_messages)))
  ∧ received (events (websocket_hello 5 1 two_messages)) = ["hi"; "ho"].
Proof.
  assert (accept 1 (world two_messages) = (Ok tt, world two_messages)) as Hacc
    by reflexivity.
  split_and!; [exact Hacc| |vm_compute; reflexivity].
  exact (proj1 (hello_transcript 5 1 two_messages (world two_messages) Hacc)).
Defined.

Lemma hello_exception_is_from_close_witness :
  accept 1 (world bad_close) = (Ok tt, world bad_close)
  ∧ outcome (websocket_hello 2 1 bad_close) = Raise RuntimeError
  ∧ isinstance_Exception RuntimeError = true
  ∧ last (events (websocket_hello 2 1 bad_close)) = Some (EvClose 1 (Raise RuntimeError)).
Proof.
  assert (accept 1 (world bad_close) = (Ok tt, world bad_close)) as Hacc by reflexivity.
  assert (outcome (websocket_hello 2 1 bad_close) = Raise RuntimeError) as Hout
    by (vm_compute; reflexivity).
  assert (isinstance_Exception RuntimeError = true) as He by reflexivity.
  split_and!; [exact Hacc|exact Hout|exact He|].
  exact (hello_exception_is_from_close 2 1 bad_close (world bad_close) RuntimeError
           Hacc Hout He).
Defined.
